(** * SekaiSongCrawl: the asset acquisition and tagging pipeline of [main.py]

    A shallow embedding of [fetch_music] and [main] and the properties of
    the pipeline that the specification states about them.

    Conventions of the embedding.
    - Python [str] is [string]; the eight characters that the file name
      loop replaces are ASCII, so replacing them byte-wise in a UTF-8
      string is replacing them code point by code point.
    - Python [int] identifiers are [Z]; lengths and counters are [nat].
    - A [dict] that is only looked up by key is a [gmap]; the dict literal
      whose iteration order builds the author list is a list of keys in
      insertion order.
    - The module level globals, the file system, the scripted network,
      the progress bars and the console are the fields of one [World]
      that every statement of the program transforms.
    - The network is a finite script of replies, taken in order by the
      requests. A request made when the script is over is never answered:
      the run is [Starved], which is how a retry loop that never succeeds
      shows in the model.
    - Paths are POSIX paths, and a path is the list of its components:
      [..] and symbolic links are not interpreted, so a statement about
      where a file lies is made for paths without [..]. Opening a file for
      writing in a directory that exists and saving tags to a file that
      was loaded do not fail: there is no full disk and no permission
      error.
    - A save by mutagen writes the tag without the text frames that have
      no text, and rewrites the bytes of the file; what the bytes become
      is left to the environment. A picture is stored under its
      description.
    - [print] is the line it shows and [exists()] is a lookup: the
      console markup of a message and the length of a file name, which can
      make the real calls raise, are not modelled, and no statement says
      which exceptions a run cannot raise.
    - [asyncio.gather] runs the workers one after the other. *)

From Stdlib Require Import ZArith List String Ascii Lia Bool.
From stdpp Require Import base option gmap strings list fin_maps.

Local Open Scope string_scope.
Local Open Scope Z_scope.

(** ** The pydantic records of [main.py] *)

Module MusicInfo.
Record t : Type := mk {
  id : Z;
  seq : Z;
  releaseConditionId : Z;
  categories : list string;
  title : string;
  pronunciation : string;
  lyricist : string;
  composer : string;
  arranger : string;
  dancerCount : Z;
  selfDancerPosition : Z;
  assetBundleName : string;
  liveTalkBackgroundAssetBundleName : string;
  publishedAt : Z;
  liveStageId : Z;
  fillerSec : Z
}.
End MusicInfo.

Module Character.
Record t : Type := mk {
  id : Z;
  musicId : Z;
  musicVocalId : Z;
  characterType : string;
  characterId : Z;
  seq : Z
}.
End Character.

Module VocalInfo.
Record t : Type := mk {
  id : Z;
  musicId : Z;
  musicVocalType : string;
  seq : Z;
  releaseConditionId : Z;
  caption : string;
  characters : list Character.t;
  assetBundleName : string
}.
End VocalInfo.

Module OutsideCharacter.
Record t : Type := mk {
  id : Z;
  seq : Z;
  name : string
}.
End OutsideCharacter.

Module GameCharacter.
Record t : Type := mk {
  id : Z;
  seq : Z;
  resourceId : Z;
  firstName : string;
  givenName : string;
  firstNameRuby : string;
  givenNameRuby : string;
  gender : string;
  height : Z;
  live2dHeightAdjustment : Z;
  figure : string;
  breastSize : string;
  modelName : string;
  unit : string;
  supportUnitType : string
}.

(** [full_name]: [self.firstName + self.givenName]. *)
Definition full_name (self : t) : string := firstName self +:+ givenName self.
End GameCharacter.

(** ** String primitives of Python used by [fetch_music] *)

Module Py.

(** [sep.join(l)] *)
Fixpoint join (sep : string) (l : list string) : string :=
  match l with
  | [] => EmptyString
  | [x] => x
  | x :: rest => x +:+ sep +:+ join sep rest
  end.

(** [s.replace(old, new)] for a one-character [old] and [new]. *)
Fixpoint replace (old new : ascii) (s : string) : string :=
  match s with
  | EmptyString => EmptyString
  | String c rest =>
      String (if Ascii.eqb c old then new else c) (replace old new rest)
  end.

(** The keys of a dict literal [{k1: 0, k2: 0, ...}] in iteration order:
    a key that is already present keeps its first position. *)
Definition dict_add (keys : list string) (k : string) : list string :=
  if bool_decide (k ∈ keys) then keys else (keys ++ [k])%list.

Definition dict_keys (ks : list string) : list string :=
  fold_left dict_add ks [].

(** Truthiness of a [str]. *)
Definition truthy (s : string) : bool :=
  match s with EmptyString => false | _ => true end.

(** [c in s] for a character. *)
Fixpoint contains (c : ascii) (s : string) : bool :=
  match s with
  | EmptyString => false
  | String d rest => Ascii.eqb d c || contains c rest
  end.

End Py.

(** ** Lines 96-100 and 129-133: the author list *)

(** [i for i in {music.lyricist: 0, music.composer: 0, music.arranger: 0}
     if i and i != "-"] *)
Definition authors (music : MusicInfo.t) : list string :=
  List.filter (fun i => Py.truthy i && negb (String.eqb i "-"))
    (Py.dict_keys [MusicInfo.lyricist music; MusicInfo.composer music;
                   MusicInfo.arranger music]).

Definition authors_repr (music : MusicInfo.t) : string :=
  Py.join ", " (authors music).

(** ** Lines 117-121: file name and destination path *)

Definition characters_repr (characters_tup : list string) : string :=
  match characters_tup with
  | [] => EmptyString
  | _ => "(" +:+ Py.join ", " characters_tup +:+ ")"
  end.

(** The f-string of line 118, before any replacement. *)
Definition raw_file_name (music : MusicInfo.t) (vocal : VocalInfo.t)
    (characters_tup : list string) : string :=
  authors_repr music +:+ " - " +:+ MusicInfo.title music +:+ " - " +:+
  VocalInfo.musicVocalType vocal +:+ characters_repr characters_tup +:+ ".mp3".

(** The characters of the string literal of line 119, in order. *)
Definition repl_chars : list ascii :=
  ["?"; "*"; ":"; "<"; ">"; "|"; "/"; "\"]%char.

(** [for repl in "?*:<>|/\\": name = name.replace(repl, "_")] *)
Definition replace_all (name : string) : string :=
  fold_left (fun acc repl => Py.replace repl "_"%char acc) repl_chars name.

Definition music_file_name (music : MusicInfo.t) (vocal : VocalInfo.t)
    (characters_tup : list string) : string :=
  replace_all (raw_file_name music vocal characters_tup).

(** The argument of [Path(...)] on line 121. *)
Definition oop_path_arg (music : MusicInfo.t) (vocal : VocalInfo.t)
    (characters_tup : list string) : string :=
  "./Download/" +:+ VocalInfo.musicVocalType vocal +:+ "/" +:+
  music_file_name music vocal characters_tup.

(** ** [pathlib.Path] (POSIX flavour, relative paths) *)

Module Path.

(** [s.split(sep)] for a one-character separator. *)
Fixpoint split (sep : ascii) (s : string) : list string :=
  match s with
  | EmptyString => [EmptyString]
  | String c rest =>
      if Ascii.eqb c sep then EmptyString :: split sep rest
      else match split sep rest with
           | [] => [String c EmptyString]
           | h :: t => String c h :: t
           end
  end.

(** A relative path is the list of its components. *)
Definition t : Type := list string.

(** [Path(arg)] for an argument that does not start with a slash: empty
    components and ["."] components are dropped. *)
Definition of_string (arg : string) : t :=
  List.filter (fun part => negb (String.eqb part EmptyString) && negb (String.eqb part "."))
    (split "/"%char arg).

(** [p.parent] *)
Definition parent (p : t) : t := removelast p.

(** [p.as_posix()] *)
Definition as_posix (p : t) : string :=
  match p with
  | [] => "."
  | _ => Py.join "/" p
  end.

(** The path itself and its ancestors up to, not including, the current
    directory: shortest first. *)
Fixpoint prefixes (p : t) : list t :=
  match p with
  | [] => []
  | part :: rest => [part] :: List.map (cons part) (prefixes rest)
  end.

End Path.

(** ** The outside world: mutagen's tag container, files, network, console *)

Definition bytes : Type := list Byte.byte.

(** [mutagen.id3.APIC] with the four fields the program sets;
    [PictureType.COVER_FRONT] is 3. *)
Record APIC : Type := mkAPIC {
  apic_mime : string;
  apic_type : Z;
  apic_desc : string;
  apic_data : bytes
}.

(** The ID3 tag of a file: the text frames under their EasyID3 keys, and
    the attached pictures. mutagen keeps the frames of a tag in a dict,
    and the key of a picture is made of its description: there is at most
    one picture for a description. *)
Record ID3 : Type := mkID3 {
  text_frames : gmap string (list string);
  pictures : gmap string APIC
}.

(** A regular file: the bytes it holds and the tag mutagen currently finds
    in them. *)
Record File : Type := mkFile {
  file_content : bytes;
  file_tags : option ID3
}.

Inductive node : Type :=
| Dir
| Reg (f : File).

(** One scripted reply of the network to a [client.get]. *)
Inductive response : Type :=
| Response (content : bytes)
| RequestError (repr : string).

Inductive exn : Type :=
| HTTPError (repr : string)     (* raised by [client.get] *)
| ValidationError               (* raised by [.json()] or [parse_obj] *)
| KeyError (key : Z)            (* a dict lookup by an absent key *)
| FileExistsError (p : Path.t)  (* [mkdir] over something that is not a directory *)
| MutagenError (p : Path.t)     (* [EasyMP3(path)] / [MP3(path)] cannot load the file *)
| AttributeError.               (* [None.add] *)

Inductive event : Type :=
| Get (url : string)
| Print (msg : string)
| WriteFile (p : Path.t)
| SaveTags (p : Path.t)
| SaveCover (p : Path.t).

(** [rich.progress] task. *)
Record Task : Type := mkTask {
  task_description : string;
  task_total : nat;
  task_completed : nat
}.

(** What the program cannot decide by itself: how the downloaded bytes
    decode, and the bytes [mp3.save()] leaves in a file, given the tag it
    writes and the bytes that were there. [None] stands for the library
    raising. In [parse_vocals] the
    outer [option] is [.json()], and the inner one is [VocalInfo.parse_obj]
    on a single element, which the lazy [map] of line 193 calls between two
    iterations of the loop body. *)
Record Env : Type := mkEnv {
  parse_musics : bytes -> option (list MusicInfo.t);
  parse_vocals : bytes -> option (list (option VocalInfo.t));
  parse_game_characters : bytes -> option (list GameCharacter.t);
  parse_outside_characters : bytes -> option (list OutsideCharacter.t);
  mp3_loadable : bytes -> bool;
  embedded_tags : bytes -> option ID3;
  saved_bytes : ID3 -> bytes -> bytes
}.

(** The module level globals of lines 84-87 together with everything else
    the program reads and writes. [net] is the list of replies the network
    will give to the next requests, in order; [out] is the trace of
    observable actions, oldest first. *)
Record World : Type := mkWorld {
  musics : list MusicInfo.t;
  game_characters : gmap Z GameCharacter.t;
  outside_characters : gmap Z OutsideCharacter.t;
  vocal_map : gmap Z (list VocalInfo.t);
  fs : gmap Path.t node;
  net : list response;
  progress : list Task;
  out : list event
}.

Definition set_musics (x : list MusicInfo.t) (w : World) : World :=
  mkWorld x (game_characters w) (outside_characters w) (vocal_map w)
          (fs w) (net w) (progress w) (out w).
Definition set_game_characters (x : gmap Z GameCharacter.t) (w : World) : World :=
  mkWorld (musics w) x (outside_characters w) (vocal_map w)
          (fs w) (net w) (progress w) (out w).
Definition set_outside_characters (x : gmap Z OutsideCharacter.t) (w : World) : World :=
  mkWorld (musics w) (game_characters w) x (vocal_map w)
          (fs w) (net w) (progress w) (out w).
Definition set_vocal_map (x : gmap Z (list VocalInfo.t)) (w : World) : World :=
  mkWorld (musics w) (game_characters w) (outside_characters w) x
          (fs w) (net w) (progress w) (out w).
Definition set_fs (x : gmap Path.t node) (w : World) : World :=
  mkWorld (musics w) (game_characters w) (outside_characters w) (vocal_map w)
          x (net w) (progress w) (out w).
Definition set_net (x : list response) (w : World) : World :=
  mkWorld (musics w) (game_characters w) (outside_characters w) (vocal_map w)
          (fs w) x (progress w) (out w).
Definition set_progress (x : list Task) (w : World) : World :=
  mkWorld (musics w) (game_characters w) (outside_characters w) (vocal_map w)
          (fs w) (net w) x (out w).
Definition emit (e : event) (w : World) : World :=
  mkWorld (musics w) (game_characters w) (outside_characters w) (vocal_map w)
          (fs w) (net w) (progress w) (out w ++ [e])%list.

(** ** The monad of the program: state, exceptions, and a network that
       may stop answering *)

Inductive outcome (A : Type) : Type :=
| Ret (a : A) (w : World)     (* normal completion *)
| Raise (e : exn) (w : World) (* an exception is propagating *)
| Starved (w : World).        (* a request is pending and the script is over *)
Arguments Ret {A} a w.
Arguments Raise {A} e w.
Arguments Starved {A} w.

Definition M (A : Type) : Type := World -> outcome A.

Definition ret {A : Type} (a : A) : M A := fun w => Ret a w.

Definition bind {A B : Type} (m : M A) (k : A -> M B) : M B :=
  fun w =>
    match m w with
    | Ret a w' => k a w'
    | Raise e w' => Raise e w'
    | Starved w' => Starved w'
    end.

Declare Scope prog_scope.
Delimit Scope prog_scope with prog.
Notation "x <- m ;; k" := (bind m (fun x => k))
  (at level 100, m at next level, right associativity) : prog_scope.
Notation "m ;; k" := (bind m (fun _ => k))
  (at level 100, right associativity) : prog_scope.
Local Open Scope prog_scope.

Definition raise {A : Type} (e : exn) : M A := fun w => Raise e w.
Definition modify (f : World -> World) : M unit := fun w => Ret tt (f w).
Definition gets {A : Type} (f : World -> A) : M A := fun w => Ret (f w) w.

(** [print(msg)] *)
Definition print (msg : string) : M unit := modify (emit (Print msg)).

(** [with contextlib.suppress(Exception): body] *)
Definition suppress (body : M unit) : M unit :=
  fun w =>
    match body w with
    | Raise _ w' => Ret tt w'
    | o => o
    end.

(** [await client.get(url)]: the request is sent, and the next reply of
    the script is either a response object or an exception. *)
Definition client_get (url : string) : M bytes :=
  fun w =>
    let w := emit (Get url) w in
    match net w with
    | [] => Starved w
    | Response content :: rest => Ret content (set_net rest w)
    | RequestError repr :: rest => Raise (HTTPError repr) (set_net rest w)
    end.

(** [for x in xs: body(x)] *)
Fixpoint for_each {A : Type} (body : A -> M unit) (xs : list A) : M unit :=
  match xs with
  | [] => ret tt
  | x :: rest => body x ;; for_each body rest
  end.

(** [tuple(f(x) for x in xs)] *)
Fixpoint map_m {A B : Type} (f : A -> M B) (xs : list A) : M (list B) :=
  match xs with
  | [] => ret []
  | x :: rest => y <- f x ;; ys <- map_m f rest ;; ret (y :: ys)
  end.

(** [try: body except Exception as e: handler(e)] *)
Definition try_except {A : Type} (body : M A) (handler : exn -> M A) : M A :=
  fun w =>
    match body w with
    | Raise e w' => handler e w'
    | o => o
    end.

(** [x = None; while x is None: body], where [body] may assign [x]. The
    fuel bounds the number of iterations; [retry] below supplies more fuel
    than the loop can use. *)
Fixpoint while_none {A : Type} (fuel : nat) (body : M (option A)) : M A :=
  match fuel with
  | O => fun w => Starved w
  | S fuel' =>
      r <- body ;;
      match r with
      | Some a => ret a
      | None => while_none fuel' body
      end
  end.

(** [while cond: body] *)
Fixpoint while_ (fuel : nat) (cond : World -> bool) (body : M unit) : M unit :=
  fun w =>
    if cond w then
      match fuel with
      | O => Starved w
      | S fuel' => (body ;; while_ fuel' cond body) w
      end
    else Ret tt w.

(** Every iteration of the three retry loops of the program starts with a
    request, which takes one reply off the script or is starved: one more
    iteration than there are replies is enough. *)
Definition retry_fuel (w : World) : nat := S (length (net w)).

Definition retry {A : Type} (body : M (option A)) : M A :=
  fun w => while_none (retry_fuel w) body w.

Definition retry_while (cond : World -> bool) (body : M unit) : M unit :=
  fun w => while_ (retry_fuel w) cond body w.

(** *** The file system calls *)

(** [p.mkdir(parents=True, exist_ok=True)]: the directory and its missing
    ancestors are created; the call raises when one of them exists and is
    not a directory. *)
Definition mkdir_step (acc : option (gmap Path.t node)) (q : Path.t)
    : option (gmap Path.t node) :=
  match acc with
  | None => None
  | Some tree =>
      match tree !! q with
      | Some (Reg _) => None
      | Some Dir => Some tree
      | None => Some (<[q := Dir]> tree)
      end
  end.

Definition mkdir_parents (p : Path.t) : M unit :=
  fun w =>
    match fold_left mkdir_step (Path.prefixes p) (Some (fs w)) with
    | Some tree => Ret tt (set_fs tree w)
    | None => Raise (FileExistsError p) w
    end.

(** [p.exists()]: true of files and of directories; the empty path is the
    current directory. *)
Definition path_exists (p : Path.t) (w : World) : bool :=
  match p with
  | [] => true
  | _ => bool_decide (is_Some (fs w !! p))
  end.

(** [with open(path, "wb") as f: f.write(content)] *)
Definition write_file (env : Env) (p : Path.t) (content : bytes) : M unit :=
  modify (fun w =>
    emit (WriteFile p)
      (set_fs (<[p := Reg (mkFile content (embedded_tags env content))]> (fs w)) w)).

(** [EasyMP3(path)] and [MP3(path)]: the tag found in the file, [None]
    when it has none. *)
Definition mutagen_load (env : Env) (p : Path.t) : M (option ID3) :=
  fun w =>
    match fs w !! p with
    | Some (Reg f) =>
        if mp3_loadable env (file_content f) then Ret (file_tags f) w
        else Raise (MutagenError p) w
    | _ => Raise (MutagenError p) w
    end.

(** A text frame without text: [save] writes a text frame only if its
    strings, joined by NUL, are not the empty string. *)
Definition empty_text (text : list string) : bool :=
  match text with
  | [] => true
  | [s] => String.eqb s EmptyString
  | _ => false
  end.

(** The tag that [save] writes: the frames of the tag in memory but for
    the text frames without text. *)
Definition saved_tags (tags : ID3) : ID3 :=
  mkID3 (filter (fun kv => empty_text kv.2 = false) (text_frames tags))
        (pictures tags).

Definition store_tags (env : Env) (tags : ID3) (n : node) : node :=
  match n with
  | Reg f =>
      Reg (mkFile (saved_bytes env (saved_tags tags) (file_content f))
                  (Some (saved_tags tags)))
  | Dir => Dir
  end.

(** [mp3.save()]: the file is rewritten with the tag. *)
Definition mutagen_save (env : Env) (p : Path.t) (e : event) (tags : ID3) : M unit :=
  modify (fun w => emit e (set_fs (alter (store_tags env tags) p (fs w)) w)).

(** *** The progress bars *)

(** [progress.add_task(description, total=total)] *)
Definition add_task (description : string) (total : nat) : M nat :=
  fun w =>
    Ret (length (progress w))
        (set_progress (progress w ++ [mkTask description total 0])%list w).

Definition advance_task (t : Task) : Task :=
  mkTask (task_description t) (task_total t) (S (task_completed t)).

(** [progress.update(task, advance=1)] *)
Definition progress_update (task : nat) : M unit :=
  fun w =>
    match progress w !! task with
    | Some _ => Ret tt (set_progress (alter advance_task task (progress w)) w)
    | None => Raise (KeyError (Z.of_nat task)) w
    end.

(** ** [fetch_music], lines 90-173 *)

Definition cover_url (music : MusicInfo.t) : string :=
  "https://storage.sekai.best/sekai-assets/music/jacket/" +:+
  MusicInfo.assetBundleName music +:+ "_rip/" +:+
  MusicInfo.assetBundleName music +:+ ".png".

Definition audio_url (vocal : VocalInfo.t) : string :=
  "https://storage.sekai.best/sekai-assets/music/long/" +:+
  VocalInfo.assetBundleName vocal +:+ "_rip/" +:+
  VocalInfo.assetBundleName vocal +:+ ".mp3".

(** [repr(e)] *)
Definition exn_repr (e : exn) : string :=
  match e with
  | HTTPError repr => repr
  | ValidationError => "ValidationError()"
  | KeyError _ => "KeyError()"
  | FileExistsError _ => "FileExistsError()"
  | MutagenError _ => "MutagenError()"
  | AttributeError => "AttributeError()"
  end.

(** Lines 101-108. *)
Definition fetch_cover (music : MusicInfo.t) : M bytes :=
  retry (try_except (content <- client_get (cover_url music) ;; ret (Some content))
                    (fun _ => ret None)).

(** Lines 134-142. *)
Definition fetch_audio (vocal : VocalInfo.t) (music_file_name : string) : M bytes :=
  retry (try_except
           (content <- client_get (audio_url vocal) ;;
            print ("[green] Got " +:+ music_file_name) ;;
            ret (Some content))
           (fun e =>
              print ("[red] " +:+ music_file_name +:+ " - " +:+ exn_repr e) ;;
              ret None)).

(** Lines 112-114: one element of [characters_tup]. *)
Definition character_name (c : Character.t) : M string :=
  if String.eqb (Character.characterType c) "game_character" then
    table <- gets game_characters ;;
    match table !! Character.characterId c with
    | Some e => ret (GameCharacter.full_name e)
    | None => raise (KeyError (Character.characterId c))
    end
  else
    table <- gets outside_characters ;;
    match table !! Character.characterId c with
    | Some e => ret (OutsideCharacter.name e)
    | None => raise (KeyError (Character.characterId c))
    end.

(** [getattr(music, t)] for the three names of line 150. *)
Definition getattr (music : MusicInfo.t) (t : string) : string :=
  if String.eqb t "lyricist" then MusicInfo.lyricist music
  else if String.eqb t "composer" then MusicInfo.composer music
  else MusicInfo.arranger music.

(** Lines 149-156 as the list of assignments [mp3[key] = value], in
    program order. EasyID3 stores a [str] value as a one-element list. *)
Definition text_assignments (music : MusicInfo.t) (vocal : VocalInfo.t)
    (characters_tup : list string) : list (string * list string) :=
  ([("title", [MusicInfo.title music])] ++
   flat_map (fun t => let d := getattr music t in
                      if negb (String.eqb d "-") then [(t, [d])] else [])
            ["lyricist"; "composer"; "arranger"] ++
   [("artist", characters_tup ++ authors music);
    ("performer", characters_tup);
    ("album", ["Project Sekai Soundtrack - " +:+ VocalInfo.musicVocalType vocal])])%list.

Definition assign (tags : ID3) (kv : string * list string) : ID3 :=
  mkID3 (<[kv.1 := kv.2]> (text_frames tags)) (pictures tags).

(** Line 148, [mp3.add_tags()]. *)
Definition empty_tags : ID3 := mkID3 ∅ ∅.

(** Lines 146-157: the first pass, through EasyID3. *)
Definition write_text_tags (env : Env) (p : Path.t) (music : MusicInfo.t)
    (vocal : VocalInfo.t) (characters_tup : list string) : M unit :=
  found <- mutagen_load env p ;;
  let tags := match found with Some tags => tags | None => empty_tags end in
  mutagen_save env p (SaveTags p)
    (fold_left assign (text_assignments music vocal characters_tup) tags).

Definition cover_frame (cover_png : bytes) : APIC :=
  mkAPIC "image/png" 3 "Cover (front)" cover_png.

(** [tags.add(frame)] for a picture: the frame is stored under its
    description, in place of the picture that was there under it. *)
Definition id3_add (frame : APIC) (tags : ID3) : ID3 :=
  mkID3 (text_frames tags) (<[apic_desc frame := frame]> (pictures tags)).

(** Lines 159-168: the second pass, through the full ID3 interface. *)
Definition attach_cover (env : Env) (p : Path.t) (cover_png : bytes) : M unit :=
  found <- mutagen_load env p ;;
  match found with
  | None => raise AttributeError
  | Some tags => mutagen_save env p (SaveCover p) (id3_add (cover_frame cover_png) tags)
  end.

(** Lines 127-145: what is done for a variant whose file is not there. *)
Definition download (env : Env) (vocal : VocalInfo.t) (music_file_name : string)
    (oop_path : Path.t) : M unit :=
  content <- fetch_audio vocal music_file_name ;;
  write_file env oop_path content ;;
  print ("[cyan] Downloaded " +:+ music_file_name).

(** Lines 146-168. *)
Definition tag (env : Env) (music : MusicInfo.t) (vocal : VocalInfo.t)
    (characters_tup : list string) (cover_png : bytes) (oop_path : Path.t) : M unit :=
  write_text_tags env oop_path music vocal characters_tup ;;
  attach_cover env oop_path cover_png.

(** The body of the loop of line 110. *)
Definition fetch_vocal (env : Env) (music : MusicInfo.t) (cover_png : bytes)
    (on_variant_complete : M unit) (vocal : VocalInfo.t) : M unit :=
  characters_tup <- map_m character_name (VocalInfo.characters vocal) ;;
  let music_file_name := music_file_name music vocal characters_tup in
  let oop_path := Path.of_string (oop_path_arg music vocal characters_tup) in
  mkdir_parents (Path.parent oop_path) ;;
  present <- gets (path_exists oop_path) ;;
  if present then
    print ("[cyan] " +:+ music_file_name +:+ " already exists.") ;;
    on_variant_complete
  else
    download env vocal music_file_name oop_path ;;
    tag env music vocal characters_tup cover_png oop_path ;;
    print ("[green] Saved " +:+ music_file_name +:+ " metadata.") ;;
    on_variant_complete.

Definition fetch_music (env : Env) (music : MusicInfo.t) (vocals : list VocalInfo.t)
    (on_variant_complete on_complete : M unit) : M unit :=
  cover_png <- fetch_cover music ;;
  print ("[green] Got cover for " +:+ MusicInfo.title music) ;;
  for_each (fetch_vocal env music cover_png on_variant_complete) vocals ;;
  print ("[magenta] Downloaded " +:+ MusicInfo.title music) ;;
  on_complete.

(** ** [main], lines 176-249 *)

Definition musics_url : string :=
  "https://sekai-world.github.io/sekai-master-db-diff/musics.json".
Definition vocals_url : string :=
  "https://sekai-world.github.io/sekai-master-db-diff/musicVocals.json".
Definition game_characters_url : string :=
  "https://sekai-world.github.io/sekai-master-db-diff/gameCharacters.json".
Definition outside_characters_url : string :=
  "https://sekai-world.github.io/sekai-master-db-diff/outsideCharacters.json".

(** A decoding step that may raise. *)
Definition decoded {A : Type} (r : option A) : M A :=
  match r with
  | Some a => ret a
  | None => raise ValidationError
  end.

(** Line 201: [vocal_map.setdefault(v.musicId, []).append(v)]. The list
    stored in the global dict is extended in place. *)
Definition setdefault_append (v : VocalInfo.t) (m : gmap Z (list VocalInfo.t))
    : gmap Z (list VocalInfo.t) :=
  <[VocalInfo.musicId v := (default [] (m !! VocalInfo.musicId v) ++ [v])%list]> m.

(** [{e.id: e for e in es}]: a later element replaces an earlier one with
    the same identifier. *)
Definition dict_by_id {A : Type} (key : A -> Z) (es : list A) : gmap Z A :=
  fold_left (fun m e => <[key e := e]> m) es ∅.

(** Lines 182-226: the body of the [with contextlib.suppress(Exception)]
    block. *)
Definition load_body (env : Env) : M unit :=
  content <- client_get musics_url ;;
  parsed <- decoded (parse_musics env content) ;;
  modify (set_musics parsed) ;;
  print "[cyan]Fetched music list." ;;
  content <- client_get vocals_url ;;
  items <- decoded (parse_vocals env content) ;;
  for_each (fun item =>
              v <- decoded item ;;
              modify (fun w => set_vocal_map (setdefault_append v (vocal_map w)) w))
           items ;;
  print "[green]Fetched vocal list." ;;
  content <- client_get game_characters_url ;;
  parsed <- decoded (parse_game_characters env content) ;;
  modify (set_game_characters (dict_by_id GameCharacter.id parsed)) ;;
  print "[dark_orange]Fetched game characters." ;;
  content <- client_get outside_characters_url ;;
  parsed <- decoded (parse_outside_characters env content) ;;
  modify (set_outside_characters (dict_by_id OutsideCharacter.id parsed)) ;;
  print "[dark_orange]Fetched outside characters.".

(** [not outside_characters] *)
Definition no_outside_characters (w : World) : bool :=
  bool_decide (outside_characters w = ∅).

(** Lines 180-226. *)
Definition load (env : Env) : M unit :=
  retry_while no_outside_characters (suppress (load_body env)).

(** Line 234: [sum(len(v) for v in vocal_map.values())] *)
Definition variant_total (m : gmap Z (list VocalInfo.t)) : nat :=
  map_fold (fun _ v acc => (length v + acc)%nat) 0%nat m.

(** Lines 244-248: the arguments of the coroutines handed to [gather],
    [(music, vocal_map[music.id])] for every [music] with
    [music.id in vocal_map], in the order of [musics]. *)
Definition scheduled (w : World) : list (MusicInfo.t * list VocalInfo.t) :=
  flat_map (fun music =>
              match vocal_map w !! MusicInfo.id music with
              | Some vocals => [(music, vocals)]
              | None => []
              end)
           (musics w).

(** Lines 228-235: the two progress bars, created before anything is
    scheduled. The result is the pair [(dl_task, dl_variant_task)]. *)
Definition open_progress : M (nat * nat) :=
  modify (set_progress []) ;;
  total <- gets (fun w => length (musics w)) ;;
  dl_task <- add_task "[red]Downloading music..." total ;;
  total <- gets (fun w => variant_total (vocal_map w)) ;;
  dl_variant_task <- add_task "[red]Downloading variants..." total ;;
  ret (dl_task, dl_variant_task).

(** Lines 237-249. [asyncio.gather] is run under the schedule in which
    the coroutines execute one after the other, in argument order; an
    exception of one of them ends the run. *)
Definition gather (env : Env) (tasks : nat * nat) : M unit :=
  let advance := progress_update tasks.1 in
  let advance_variant := progress_update tasks.2 in
  jobs <- gets scheduled ;;
  for_each (fun job => fetch_music env job.1 job.2 advance_variant advance) jobs.

Definition download_all (env : Env) : M unit :=
  tasks <- open_progress ;;
  gather env tasks.

Definition main (env : Env) : M unit :=
  load env ;;
  download_all env.

(** The state of the process when [main] starts: the globals as
    initialised on lines 84-87, a file system, and the replies the network
    is going to give. *)
Definition start (tree : gmap Path.t node) (script : list response) : World :=
  mkWorld [] ∅ ∅ ∅ tree script [] [].

(** ** The specification's own words, to compare the program with *)

Module Spec.

(** The characters [? * : < > | / \] that may not appear in a file name. *)
Definition forbidden (c : ascii) : bool :=
  bool_decide (c ∈ ["?"; "*"; ":"; "<"; ">"; "|"; "/"; "\"]%char).

Definition sanitize_char (c : ascii) : ascii :=
  if forbidden c then "_"%char else c.

(** Every occurrence of a forbidden character is replaced by [_]. *)
Fixpoint sanitize (s : string) : string :=
  match s with
  | EmptyString => EmptyString
  | String c rest => String (sanitize_char c) (sanitize rest)
  end.

(** De-duplication that keeps the order of first occurrences. *)
Fixpoint dedup (l : list string) : list string :=
  match l with
  | [] => []
  | x :: rest => x :: List.filter (fun y => negb (String.eqb y x)) (dedup rest)
  end.

(** An author entry that counts: neither empty nor the sentinel ["-"]. *)
Definition named (s : string) : bool :=
  negb (String.eqb s EmptyString) && negb (String.eqb s "-").

(** The de-duplicated, order-preserving subset of (lyricist, composer,
    arranger) with empty and ["-"] entries removed. *)
Definition author_list (music : MusicInfo.t) : list string :=
  dedup (List.filter named
           [MusicInfo.lyricist music; MusicInfo.composer music;
            MusicInfo.arranger music]).

(** ["(name1, name2, ...)"], omitted entirely without characters. *)
Definition character_suffix (names : list string) : string :=
  if bool_decide (names = []) then EmptyString else "(" +:+ Py.join ", " names +:+ ")".

(** ["<authors joined by ', '> - <title> - <variantType><(characters
    joined by ', ')?>.mp3"], sanitized. *)
Definition file_name (music : MusicInfo.t) (vocal : VocalInfo.t)
    (names : list string) : string :=
  sanitize (Py.join ", " (author_list music) +:+ " - " +:+
            MusicInfo.title music +:+ " - " +:+
            VocalInfo.musicVocalType vocal +:+ character_suffix names +:+
            ".mp3").


(** The variants of a loaded track. *)
Definition variants_of (w : World) (music : MusicInfo.t) : list VocalInfo.t :=
  default [] (vocal_map w !! MusicInfo.id music).

(** The loaded tracks that have at least one vocal variant. *)
Definition tracks_with_variants (w : World) : list MusicInfo.t :=
  List.filter (fun music => negb (Nat.eqb (length (variants_of w music)) 0))
              (musics w).

(** Total of the track counter: the number of those tracks. *)
Definition track_total (w : World) : nat := length (tracks_with_variants w).

(** Total of the variant counter: the variant counts of exactly those
    tracks, added up. *)
Definition variant_total (w : World) : nat :=
  sum_list (List.map (fun music => length (variants_of w music))
                     (tracks_with_variants w)).

End Spec.

(** ** Vocabulary of the statements *)

(** The world in which a run ends, however it ends. *)
Definition final {A : Type} (o : outcome A) : World :=
  match o with
  | Ret _ w => w
  | Raise _ w => w
  | Starved w => w
  end.

(** [triple I m Q]: started in a world of [I], the program [m] ends,
    normally or not, in a world that [Q] relates to the initial one. *)
Definition triple {A : Type} (I : World -> Prop) (m : M A)
    (Q : World -> World -> Prop) : Prop :=
  forall w, I w -> Q w (final (m w)).

(** What lets a triple pass through sequencing and loops. *)
Record framing (I : World -> Prop) (Q : World -> World -> Prop) : Prop := {
  framing_refl : forall w, I w -> Q w w;
  framing_trans : forall w1 w2 w3, I w1 -> Q w1 w2 -> Q w2 w3 -> Q w1 w3;
  framing_stable : forall w w', I w -> Q w w' -> I w'
}.

(** No key of the variant map is bound to an empty list. *)
Definition lists_nonempty (m : gmap Z (list VocalInfo.t)) : Prop :=
  map_Forall (fun _ vocals => vocals <> []) m.

Definition catalog_nonempty (w : World) : Prop := lists_nonempty (vocal_map w).

(** A loop body that either is starved or leaves fewer replies on the
    script than it found. *)
Definition consumes {A : Type} (m : M A) : Prop :=
  forall w,
    match m w with
    | Ret _ w' => (length (net w') < length (net w))%nat
    | Raise _ w' => (length (net w') < length (net w))%nat
    | Starved w' => (length (net w') <= length (net w))%nat
    end.

(** The script is only ever shortened. *)
Definition net_shrinks (w w' : World) : Prop :=
  (length (net w') <= length (net w))%nat.

(** The loaded tracks that no key of the variant map refers to. *)
Definition tracks_without_variants (w : World) : list MusicInfo.t :=
  List.filter (fun music => Nat.eqb (length (Spec.variants_of w music)) 0)
              (musics w).

(** The part of the variant map whose keys are not identifiers of loaded
    tracks. *)
Definition orphan_variants (w : World) : gmap Z (list VocalInfo.t) :=
  filter (fun kv => kv.1 ∉ List.map MusicInfo.id (musics w)) (vocal_map w).

(** The variant counts of the loaded tracks, added up. *)
Definition loaded_sum (m : gmap Z (list VocalInfo.t)) (l : list MusicInfo.t) : nat :=
  sum_list (List.map (fun music => length (default [] (m !! MusicInfo.id music))) l).

(** *** Character references, read off the catalogs *)

(** The display name a reference stands for, if its identifier is in the
    catalog its type selects. *)
Definition lookup_name (w : World) (c : Character.t) : option string :=
  if String.eqb (Character.characterType c) "game_character"
  then GameCharacter.full_name <$> game_characters w !! Character.characterId c
  else OutsideCharacter.name <$> outside_characters w !! Character.characterId c.

(** A reference whose identifier is absent from its catalog. *)
Definition dangling (w : World) (c : Character.t) : bool :=
  match lookup_name w c with Some _ => false | None => true end.

(** Line 111 without its effects: the names of the references in order,
    or the identifier of the first reference that dangles. *)
Fixpoint resolve (w : World) (cs : list Character.t) : Z + list string :=
  match cs with
  | [] => inr []
  | c :: rest =>
      match lookup_name w c with
      | None => inl (Character.characterId c)
      | Some name =>
          match resolve w rest with
          | inl k => inl k
          | inr names => inr (name :: names)
          end
      end
  end.

(** The destination path of a variant, when its references resolve. *)
Definition destination (w : World) (music : MusicInfo.t) (vocal : VocalInfo.t)
    : option Path.t :=
  match resolve w (VocalInfo.characters vocal) with
  | inr names => Some (Path.of_string (oop_path_arg music vocal names))
  | inl _ => None
  end.

(** *** Well-formed file systems *)

Definition is_dir (tree : gmap Path.t node) (q : Path.t) : bool :=
  match tree !! q with Some Dir => true | _ => false end.

(** The directory [d] and all its ancestors exist. *)
Definition dirs_ready (tree : gmap Path.t node) (d : Path.t) : bool :=
  forallb (is_dir tree) (Path.prefixes d).

(** Whatever exists lies in a directory that exists. *)
Definition tree_ok (tree : gmap Path.t node) : Prop :=
  map_Forall (fun p _ => dirs_ready tree (Path.parent p) = true) tree.


(** The run ended normally. *)
Definition returns {A : Type} (o : outcome A) : bool :=
  match o with Ret _ _ => true | _ => false end.

(** *** What a run may leave behind *)

(** The two catalogs that character references are resolved in. *)
Definition same_characters (w w' : World) : Prop :=
  game_characters w' = game_characters w /\
  outside_characters w' = outside_characters w.



(** The line printed for a variant that is skipped. *)
Definition already_exists (music : MusicInfo.t) (vocal : VocalInfo.t)
    (names : list string) : event :=
  Print ("[cyan] " +:+ music_file_name music vocal names +:+ " already exists.").


(** Between [w] and [w'] neither the file system nor the character
    catalogs changed. *)
Definition same_disk (w w' : World) : Prop :=
  fs w' = fs w /\ same_characters w w'.

(** The file that [f.write(dl.content)] leaves: the downloaded bytes, with
    whatever tag they carry and none that the program sets. *)
Definition untagged (env : Env) (content : bytes) : node :=
  Reg (mkFile content (embedded_tags env content)).

(** The world after lines 143-145, given the world [w] in which the audio
    request was answered. *)
Definition downloaded (env : Env) (p : Path.t) (name : string) (content : bytes)
    (w : World) : World :=
  emit (Print ("[cyan] Downloaded " +:+ name))
    (emit (WriteFile p) (set_fs (<[p := untagged env content]> (fs w)) w)).

(** The text frame stored under [key] in the file at [p]. *)
Definition tag_on_disk (w : World) (p : Path.t) (key : string)
    : option (list string) :=
  match fs w !! p with
  | Some (Reg f) =>
      match file_tags f with
      | Some tags => text_frames tags !! key
      | None => None
      end
  | _ => None
  end.

(** The output directory of the world is well formed. *)
Definition well_formed (w : World) : Prop := tree_ok (fs w).

(** Every list of the variant map of [w] is still there in [w'], possibly
    with more variants appended to it. *)
Definition variants_kept (w w' : World) : Prop :=
  forall k vocals, vocal_map w !! k = Some vocals ->
    exists more, vocal_map w' !! k = Some (vocals ++ more)%list.

(** ** Vocabulary of the further properties *)

(** The variants of [vs] that belong to track [k], in the order of [vs]. *)
Definition variants_for (k : Z) (vs : list VocalInfo.t) : list VocalInfo.t :=
  List.filter (fun v => Z.eqb (VocalInfo.musicId v) k) vs.

(** The variant map after the variants of [vs] were appended to [m], one
    after the other. *)
Definition append_all (vs : list VocalInfo.t) (m : gmap Z (list VocalInfo.t))
    : gmap Z (list VocalInfo.t) :=
  fold_left (fun acc v => setdefault_append v acc) vs m.

(** The events of an attempt of the loader in which the four requests are
    answered and decoded. *)
Definition clean_attempt_events : list event :=
  [Get musics_url; Print "[cyan]Fetched music list.";
   Get vocals_url; Print "[green]Fetched vocal list.";
   Get game_characters_url; Print "[dark_orange]Fetched game characters.";
   Get outside_characters_url; Print "[dark_orange]Fetched outside characters."].

(** The exceptions at the head of a script, and the first response with
    what follows it, if there is one. *)
Fixpoint leading_errors (script : list response)
    : list string * option (bytes * list response) :=
  match script with
  | [] => ([], None)
  | Response content :: rest => ([], Some (content, rest))
  | RequestError repr :: rest =>
      (repr :: fst (leading_errors rest), snd (leading_errors rest))
  end.

(** Everything but the network script and the console is the same. *)
Definition same_state (w w' : World) : Prop :=
  musics w' = musics w /\ vocal_map w' = vocal_map w /\
  game_characters w' = game_characters w /\
  outside_characters w' = outside_characters w /\
  fs w' = fs w /\ progress w' = progress w.

(** What the audio loop prints and requests for a script. *)
Definition audio_events (url name : string) (script : list response) : list event :=
  (flat_map (fun repr => [Get url; Print ("[red] " +:+ name +:+ " - " +:+ repr)])
            (leading_errors script).1 ++
   Get url ::
   match (leading_errors script).2 with
   | Some _ => [Print ("[green] Got " +:+ name)]
   | None => []
   end)%list.


(** What is found in a file, after a save, of a text frame that was
    assigned [text]. *)
Definition saved_text (text : list string) : option (list string) :=
  if empty_text text then None else Some text.

(** The tag that the first pass, lines 146-157, saves in the file [f]. *)
Definition first_pass (music : MusicInfo.t) (vocal : VocalInfo.t) (names : list string)
    (f : File) : ID3 :=
  saved_tags (fold_left assign (text_assignments music vocal names)
                        (default empty_tags (file_tags f))).

(** The tag that the second pass, lines 159-168, saves in a file whose
    tag is [tags]. *)
Definition second_pass (cover_png : bytes) (tags : ID3) : ID3 :=
  saved_tags (id3_add (cover_frame cover_png) tags).

(** The file [f] after the two passes. *)
Definition tagged (env : Env) (music : MusicInfo.t) (vocal : VocalInfo.t)
    (names : list string) (cover_png : bytes) (f : File) : File :=
  mkFile
    (saved_bytes env (second_pass cover_png (first_pass music vocal names f))
       (saved_bytes env (first_pass music vocal names f) (file_content f)))
    (Some (second_pass cover_png (first_pass music vocal names f))).

(** The four catalogs are the same. *)
Definition same_catalog (w w' : World) : Prop :=
  musics w' = musics w /\ vocal_map w' = vocal_map w /\
  game_characters w' = game_characters w /\
  outside_characters w' = outside_characters w.

(** Whatever was in the file system of [w] is in the one of [w'] as it
    was, and whatever is new in [w'] is at a path of [P]. *)
Definition only_adds (P : Path.t -> Prop) (w w' : World) : Prop :=
  (forall p n, fs w !! p = Some n -> fs w' !! p = Some n) /\
  (forall p, fs w !! p = None -> is_Some (fs w' !! p) -> P p).



(** The file systems agree everywhere but at [p]. *)
Definition same_elsewhere (p : Path.t) (w w' : World) : Prop :=
  forall q, q <> p -> fs w' !! q = fs w !! q.

(** A progress bar after [n] more steps. *)
Definition advance_by (n : nat) (t : Task) : Task :=
  mkTask (task_description t) (task_total t) (n + task_completed t).

(** The number of variants handed to the workers. *)
Definition scheduled_variants (w : World) : nat :=
  list_sum (List.map (fun job => length job.2) (scheduled w)).




(** ** Sample data for the examples *)

Definition sample_music (title lyricist composer arranger : string) : MusicInfo.t :=
  MusicInfo.mk 1 1 1 [] title EmptyString lyricist composer arranger 0 0
               "jacket_001" EmptyString 0 0 0.

Definition sample_vocal (id : Z) (type : string) (characters : list Character.t)
    : VocalInfo.t :=
  VocalInfo.mk id 1 type 1 1 EmptyString characters "vocal_001".

Definition sample_game_character (id : Z) (first given : string) : GameCharacter.t :=
  GameCharacter.mk id 1 1 first given EmptyString EmptyString "female" 158 0
                   "normal" "m" "v2_01miku" "piapro" "none".

Definition sample_reference (type : string) (id : Z) : Character.t :=
  Character.mk 1 1 1 type id 1.

Definition payload_musics : bytes := [Byte.x01].
Definition payload_vocals : bytes := [Byte.x02].
Definition payload_game_characters : bytes := [Byte.x03].
Definition payload_outside_characters : bytes := [Byte.x04].

Definition is_payload (expected : bytes) (b : bytes) : bool :=
  bool_decide (List.map Byte.to_N b = List.map Byte.to_N expected).

(** An environment in which each of the four datasets has one well-formed
    payload, every other payload is rejected, every download is a loadable
    MP3 without tags, and a save puts three bytes in front of the bytes
    of the file. *)
Definition sample_env : Env :=
  mkEnv
    (fun b => if is_payload payload_musics b
              then Some [sample_music "Tell Your World" "kz" "kz" "-"] else None)
    (fun b => if is_payload payload_vocals b
              then Some [Some (sample_vocal 7 "sekai" [sample_reference "game_character" 21])]
              else None)
    (fun b => if is_payload payload_game_characters b
              then Some [sample_game_character 21 "Hatsune" "Miku"] else None)
    (fun b => if is_payload payload_outside_characters b
              then Some [OutsideCharacter.mk 1 1 "Guest"] else None)
    (fun _ => true)
    (fun _ => None)
    (fun _ content => (Byte.x49 :: Byte.x44 :: Byte.x33 :: content)%list).

(** One pass of the loader in which the four requests succeed. *)
Definition clean_pass : list response :=
  [Response payload_musics; Response payload_vocals;
   Response payload_game_characters; Response payload_outside_characters].

(** An attempt in which the third request raises. *)
Definition failed_attempt : list response :=
  [Response payload_musics; Response payload_vocals; RequestError "ReadTimeout()"].

(** A catalog with a track without variants and with variants of a track
    that is not loaded. *)
Definition uneven_catalog : World :=
  mkWorld
    [sample_music "Tell Your World" "kz" "kz" "-";
     MusicInfo.mk 2 2 1 [] "Untitled" EmptyString "-" "-" "-" 0 0
                  "jacket_002" EmptyString 0 0 0]
    ∅ ∅
    (<[5 := [VocalInfo.mk 8 5 "sekai" 1 1 EmptyString [] "vocal_008";
             VocalInfo.mk 9 5 "virtual_singer" 1 1 EmptyString [] "vocal_009"]]>
       (<[1 := [sample_vocal 7 "sekai" []]]> ∅))
    ∅ [] [] [].

(** A loaded catalog with one track and one variant sung by Hatsune Miku,
    over a given file system and network script. *)
Definition sample_world (tree : gmap Path.t node) (script : list response) : World :=
  mkWorld
    [sample_music "Tell Your World" "kz" "kz" "-"]
    (<[21 := sample_game_character 21 "Hatsune" "Miku"]> ∅)
    (<[1 := OutsideCharacter.mk 1 1 "Guest"]> ∅)
    (<[1 := [sample_vocal 7 "sekai" [sample_reference "game_character" 21]]]> ∅)
    tree script
    [mkTask "[red]Downloading music..." 1 0;
     mkTask "[red]Downloading variants..." 1 0]
    [].

Definition sample_path : Path.t :=
  ["Download"; "sekai"; "kz - Tell Your World - sekai(HatsuneMiku).mp3"].

(** An output directory in which the file of that variant exists. *)
Definition sample_tree : gmap Path.t node :=
  <[sample_path := Reg (mkFile [Byte.x49; Byte.x44; Byte.x33] None)]>
    (<[["Download"; "sekai"] := Dir]> (<[["Download"] := Dir]> ∅)).

(** The same catalog with a variant that refers to an in-game character
    the catalog does not have. *)
Definition broken_world (tree : gmap Path.t node) (script : list response) : World :=
  set_vocal_map
    (<[1 := [sample_vocal 7 "sekai" [sample_reference "game_character" 21];
             sample_vocal 8 "another" [sample_reference "game_character" 99]]]> ∅)
    (sample_world tree script).

(** A catalog whose only track has an empty lyricist, before anything is
    downloaded; the network answers the cover and the audio request. *)
Definition anonymous_world : World :=
  mkWorld
    [sample_music "Tell Your World" EmptyString "kz" "-"]
    (<[21 := sample_game_character 21 "Hatsune" "Miku"]> ∅)
    ∅
    (<[1 := [sample_vocal 7 "sekai" [sample_reference "game_character" 21]]]> ∅)
    ∅
    [Response [Byte.x89; Byte.x50]; Response [Byte.xff; Byte.xfb]]
    [] [].

(** The sample environment with a download that mutagen cannot load. *)
Definition unloadable_env : Env :=
  mkEnv (parse_musics sample_env) (parse_vocals sample_env)
        (parse_game_characters sample_env) (parse_outside_characters sample_env)
        (fun _ => false) (fun _ => None) (saved_bytes sample_env).

(** The sample catalog over an empty output directory, with a network
    that answers the audio request. *)
Definition first_run_world : World :=
  sample_world ∅ [Response [Byte.xff; Byte.xfb]].

(** * Properties *)

(** ** Strings, paths and the author list *)

Section Strings.

Lemma append_cons c s1 s2 : String c s1 +:+ s2 = String c (s1 +:+ s2).
Proof. reflexivity. Qed.

Lemma string_length_app s1 s2 :
  String.length (s1 +:+ s2) = (String.length s1 + String.length s2)%nat.
Proof.
  induction s1 as [|c s1 IH]; [reflexivity|].
  rewrite append_cons. cbn. congruence.
Qed.

Lemma contains_app c s1 s2 :
  Py.contains c (s1 +:+ s2) = Py.contains c s1 || Py.contains c s2.
Proof.
  induction s1 as [|d s1 IH]; [reflexivity|].
  rewrite append_cons. cbn [Py.contains]. by rewrite IH, orb_assoc.
Qed.

Lemma replace_all_cons c s :
  replace_all (String c s) = String (Spec.sanitize_char c) (replace_all s).
Proof.
  unfold replace_all, repl_chars. cbn [fold_left Py.replace]. f_equal.
  destruct c as [[] [] [] [] [] [] [] []]; vm_compute; reflexivity.
Qed.

(** The eight successive [replace] calls amount to one pass. *)
Lemma replace_all_sanitize s : replace_all s = Spec.sanitize s.
Proof.
  induction s as [|c s IH]; [reflexivity|].
  rewrite replace_all_cons, IH. reflexivity.
Qed.

Lemma sanitize_char_not_forbidden c :
  Spec.forbidden (Spec.sanitize_char c) = false.
Proof. destruct c as [[] [] [] [] [] [] [] []]; vm_compute; reflexivity. Qed.

Lemma forbidden_elem c : c ∈ repl_chars → Spec.forbidden c = true.
Proof. intros H. unfold Spec.forbidden. by apply bool_decide_eq_true. Qed.

Lemma sanitize_free c s :
  Spec.forbidden c = true → Py.contains c (Spec.sanitize s) = false.
Proof.
  intros Hc. induction s as [|d s IH]; [reflexivity|].
  cbn [Spec.sanitize Py.contains].
  rewrite IH, orb_false_r. apply Ascii.eqb_neq. intros Heq.
  pose proof (sanitize_char_not_forbidden d) as Hd. congruence.
Qed.

Lemma sanitize_length s : String.length (Spec.sanitize s) = String.length s.
Proof. induction s; cbn; congruence. Qed.

(** *** [filter] and first-occurrence de-duplication *)

Lemma filter_filter_and {A} (P Q : A -> bool) l :
  List.filter P (List.filter Q l) = List.filter (fun x => Q x && P x) l.
Proof.
  induction l as [|x l IH]; [reflexivity|]. cbn.
  destruct (Q x); cbn; [destruct (P x)|]; congruence.
Qed.

Lemma filter_filter_comm {A} (P Q : A -> bool) l :
  List.filter P (List.filter Q l) = List.filter Q (List.filter P l).
Proof.
  rewrite !filter_filter_and. apply List.filter_ext. intros x. apply andb_comm.
Qed.

Lemma filter_filter_absorb {A} (P Q : A -> bool) l :
  (forall x, P x = true -> Q x = true) ->
  List.filter P (List.filter Q l) = List.filter P l.
Proof.
  intros H. rewrite filter_filter_and. apply List.filter_ext. intros x.
  destruct (P x) eqn:HP; [by rewrite (H x HP)|apply andb_false_r].
Qed.

Lemma filter_dedup (P : string -> bool) l :
  List.filter P (Spec.dedup l) = Spec.dedup (List.filter P l).
Proof.
  induction l as [|x l IH]; [reflexivity|]. cbn [Spec.dedup List.filter].
  destruct (P x) eqn:HP.
  - cbn [Spec.dedup]. by rewrite filter_filter_comm, IH.
  - rewrite <- IH. apply filter_filter_absorb.
    intros y Hy. apply negb_true_iff, String.eqb_neq. congruence.
Qed.

(** The keys of the dict literal, once all of them are inserted. *)
Lemma fold_dict_add ks acc :
  fold_left Py.dict_add ks acc =
  (acc ++ Spec.dedup (List.filter (fun k => negb (bool_decide (k ∈ acc))) ks))%list.
Proof.
  revert acc. induction ks as [|k ks IH]; intros acc.
  - cbn. by rewrite app_nil_r.
  - cbn [fold_left List.filter]. unfold Py.dict_add at 2.
    destruct (bool_decide (k ∈ acc)) eqn:Hk; cbn [negb].
    + apply IH.
    + rewrite IH. cbn [Spec.dedup]. rewrite <- app_assoc. cbn [app].
      do 2 f_equal. rewrite filter_dedup. f_equal.
      rewrite filter_filter_and. apply List.filter_ext. intros x.
      destruct (String.eqb_spec x k) as [->|Hne].
      * rewrite andb_false_r. apply negb_false_iff, bool_decide_eq_true.
        apply elem_of_app. right. by apply list_elem_of_singleton.
      * rewrite andb_true_r. f_equal. apply bool_decide_ext.
        rewrite elem_of_app, list_elem_of_singleton. tauto.
Qed.

Lemma dict_keys_dedup ks : Py.dict_keys ks = Spec.dedup ks.
Proof.
  unfold Py.dict_keys. rewrite fold_dict_add. cbn [app]. f_equal.
  induction ks as [|k ks IH]; [reflexivity|]. cbn [List.filter].
  rewrite bool_decide_eq_false_2 by apply not_elem_of_nil.
  cbn [negb]. by rewrite IH at 1.
Qed.

Lemma truthy_named i :
  Py.truthy i && negb (String.eqb i "-") = Spec.named i.
Proof. destruct i; reflexivity. Qed.

Lemma authors_spec music : authors music = Spec.author_list music.
Proof.
  unfold authors, Spec.author_list. rewrite dict_keys_dedup, filter_dedup.
  f_equal. apply List.filter_ext. intros i. apply truthy_named.
Qed.

Lemma characters_repr_spec names :
  characters_repr names = Spec.character_suffix names.
Proof. by destruct names. Qed.

Lemma music_file_name_sanitized music vocal names :
  music_file_name music vocal names =
  Spec.sanitize (raw_file_name music vocal names).
Proof. apply replace_all_sanitize. Qed.

Lemma music_file_name_length music vocal names :
  (4 <= String.length (music_file_name music vocal names))%nat.
Proof.
  rewrite music_file_name_sanitized, sanitize_length. unfold raw_file_name.
  rewrite !string_length_app. cbn. lia.
Qed.

(** *** [split] and [Path] *)

Lemma split_nonempty sep s : Path.split sep s ≠ [].
Proof.
  destruct s as [|c s]; cbn; [done|].
  destruct (Ascii.eqb c sep); [done|]. by destruct (Path.split sep s).
Qed.

Lemma split_app sep s1 s2 :
  Path.split sep (s1 +:+ String sep s2) =
  (Path.split sep s1 ++ Path.split sep s2)%list.
Proof.
  induction s1 as [|c s1 IH].
  - change (EmptyString +:+ String sep s2) with (String sep s2).
    cbn [Path.split app]. by rewrite Ascii.eqb_refl.
  - rewrite append_cons. cbn [Path.split]. rewrite IH.
    destruct (Ascii.eqb c sep); [reflexivity|].
    pose proof (split_nonempty sep s1) as Hne.
    by destruct (Path.split sep s1).
Qed.

Lemma split_no_sep sep s :
  Py.contains sep s = false → Path.split sep s = [s].
Proof.
  induction s as [|c s IH]; [reflexivity|]. cbn [Py.contains Path.split].
  intros [Hc Hs]%orb_false_iff. rewrite Hc, (IH Hs). reflexivity.
Qed.

Lemma contains_split c sep s :
  c ≠ sep → Py.contains c s = true →
  ∃ part, part ∈ Path.split sep s ∧ Py.contains c part = true.
Proof.
  intros Hne. induction s as [|d s IH]; [done|]. cbn [Py.contains Path.split].
  intros [Hd|Hs]%orb_true_iff.
  - apply Ascii.eqb_eq in Hd as ->.
    rewrite (proj2 (Ascii.eqb_neq c sep) Hne).
    pose proof (split_nonempty sep s) as Hs.
    destruct (Path.split sep s) as [|h t]; [done|].
    exists (String c h). split; [apply elem_of_cons; by left|].
    cbn. by rewrite Ascii.eqb_refl.
  - destruct (IH Hs) as (part & Hin & Hpart).
    destruct (Ascii.eqb d sep);
      [exists part; split; [apply elem_of_cons; by right|done]|].
    destruct (Path.split sep s) as [|h t]; [by apply elem_of_nil in Hin|].
    apply elem_of_cons in Hin as [->|Hin].
    + exists (String d h). split; [apply elem_of_cons; by left|].
      cbn. by rewrite Hpart, orb_true_r.
    + exists part. split; [apply elem_of_cons; by right|done].
Qed.

Lemma contains_join c sep part l :
  part ∈ l → Py.contains c part = true → Py.contains c (Py.join sep l) = true.
Proof.
  intros Hin Hc. induction l as [|x l IH]; [by apply elem_of_nil in Hin|].
  cbn [Py.join]. destruct l as [|y l].
  - apply list_elem_of_singleton in Hin. by subst.
  - rewrite !contains_app. apply elem_of_cons in Hin as [->|Hin].
    + by rewrite Hc.
    + rewrite (IH Hin). by rewrite !orb_true_r.
Qed.

(** The destination path: [Download], the components of the variant
    type, the file name. *)
Lemma of_string_oop_path music vocal names :
  Path.of_string (oop_path_arg music vocal names) =
  ("Download" :: Path.of_string (VocalInfo.musicVocalType vocal) ++
     [music_file_name music vocal names])%list.
Proof.
  unfold oop_path_arg, Path.of_string.
  pose proof (music_file_name_length music vocal names) as Hlen.
  pose proof (music_file_name_sanitized music vocal names) as Hsan.
  set (name := music_file_name music vocal names) in *.
  set (ty := VocalInfo.musicVocalType vocal).
  change ("./Download/" +:+ ty +:+ "/" +:+ name)
    with ("." +:+ String "/" ("Download" +:+ String "/" (ty +:+ String "/" name))).
  rewrite !split_app.
  rewrite (split_no_sep "/" name)
    by (rewrite Hsan; by apply sanitize_free).
  rewrite !List.filter_app. cbn [Path.split List.filter app].
  replace (negb (name =? EmptyString)%string && negb (name =? ".")%string)
    with true; [reflexivity|].
  symmetry. apply andb_true_iff; split; apply negb_true_iff, String.eqb_neq;
    intros Heq; rewrite Heq in Hlen; cbn in Hlen; lia.
Qed.

End Strings.

(** C4. Filename construction: the computed file name is
    ["<authors joined by ', '> - <title> - <variantType><(characters joined
    by ', ')?>.mp3"] in which the author list is the de-duplicated,
    order-preserving subset of (lyricist, composer, arranger) without empty
    and ["-"] entries, the character suffix is omitted for a variant
    without characters, and every occurrence of [? * : < > | / \] is
    replaced by [_], so that none of them is left; title ["A/B?C"], variant
    type ["sing"], no authors and no characters give
    [" - A_B_C - sing.mp3"]. *)
Theorem filename_construction (music : MusicInfo.t) (vocal : VocalInfo.t)
    (names : list string) :
  authors music = Spec.author_list music ∧
  music_file_name music vocal names = Spec.file_name music vocal names ∧
  (∀ c, c ∈ repl_chars →
        Py.contains c (music_file_name music vocal names) = false) ∧
  (MusicInfo.title music = "A/B?C" →
   VocalInfo.musicVocalType vocal = "sing" →
   Spec.author_list music = [] →
   names = [] →
   music_file_name music vocal names = " - A_B_C - sing.mp3").
Proof.
  assert (Hname : music_file_name music vocal names =
                  Spec.file_name music vocal names).
  { rewrite music_file_name_sanitized. unfold raw_file_name, Spec.file_name, authors_repr.
    by rewrite authors_spec, characters_repr_spec. }
  split; [apply authors_spec|]. split; [exact Hname|]. split.
  - intros c Hc. rewrite music_file_name_sanitized.
    by apply sanitize_free, forbidden_elem.
  - intros Htitle Hty Hauthors ->. rewrite Hname. unfold Spec.file_name.
    rewrite Htitle, Hty, Hauthors. reflexivity.
Qed.

Lemma filename_construction_witness :
  music_file_name (sample_music "A/B?C" "-" EmptyString "-")
                  (sample_vocal 1 "sing" []) [] = " - A_B_C - sing.mp3".
Proof.
  apply (filename_construction (sample_music "A/B?C" "-" EmptyString "-")
                               (sample_vocal 1 "sing" []) []);
    reflexivity.
Defined.

(** C10. Only the file name component of the destination path is
    sanitized: the directory component is the variant type as it is, so a
    forbidden character of the variant type, which can no longer occur in
    the file name, still occurs in the path that is used on the file
    system. *)
Theorem directory_component_unsanitized (music : MusicInfo.t) (vocal : VocalInfo.t)
    (names : list string) (c : ascii)
    (Hc : c ∈ repl_chars)
    (Hin : Py.contains c (VocalInfo.musicVocalType vocal) = true) :
  Path.of_string (oop_path_arg music vocal names) =
    ("Download" :: Path.of_string (VocalInfo.musicVocalType vocal) ++
       [music_file_name music vocal names])%list ∧
  Py.contains c (music_file_name music vocal names) = false ∧
  Py.contains c (Path.as_posix (Path.of_string (oop_path_arg music vocal names)))
    = true.
Proof.
  split; [apply of_string_oop_path|]. split.
  - rewrite music_file_name_sanitized. by apply sanitize_free, forbidden_elem.
  - rewrite of_string_oop_path.
    set (name := music_file_name music vocal names).
    set (ty := VocalInfo.musicVocalType vocal) in *.
    cbn [Path.as_posix].
    destruct (Ascii.eqb_spec c "/") as [->|Hsep].
    + destruct (Path.of_string ty) as [|part parts]; cbn [app Py.join];
        rewrite !contains_app; apply orb_true_iff; right;
        apply orb_true_iff; left; reflexivity.
    + destruct (contains_split c "/" ty Hsep Hin) as (part & Hpart & Hcpart).
      apply (contains_join c "/" part); [|exact Hcpart].
      apply elem_of_cons. right. apply elem_of_app. left.
      unfold Path.of_string. apply list_elem_of_In, List.filter_In.
      split; [by apply list_elem_of_In|].
      apply andb_true_iff; split; apply negb_true_iff, String.eqb_neq;
        intros ->; [discriminate|].
      cbn [Py.contains] in Hcpart. rewrite orb_false_r in Hcpart.
      apply Ascii.eqb_eq in Hcpart. subst c. unfold repl_chars in Hc.
      repeat (apply elem_of_cons in Hc as [Hc|Hc]; [discriminate|]).
      by apply elem_of_nil in Hc.
Qed.

Lemma directory_component_unsanitized_witness :
  Path.of_string (oop_path_arg (sample_music "Title" "X" "Y" "-")
                               (sample_vocal 1 "an/other:one" []) []) =
    ["Download"; "an"; "other:one"; "X, Y - Title - an_other_one.mp3"] ∧
  Py.contains ":" (music_file_name (sample_music "Title" "X" "Y" "-")
                                   (sample_vocal 1 "an/other:one" []) []) = false ∧
  Py.contains ":" (Path.as_posix
                     (Path.of_string
                        (oop_path_arg (sample_music "Title" "X" "Y" "-")
                                      (sample_vocal 1 "an/other:one" []) []))) = true.
Proof.
  apply (directory_component_unsanitized (sample_music "Title" "X" "Y" "-")
           (sample_vocal 1 "an/other:one" []) [] ":"%char).
  - unfold repl_chars. do 2 (apply elem_of_cons; right). apply elem_of_cons. by left.
  - reflexivity.
Defined.

(** ** Rules for triples *)

Section Rules.
Context (I : World -> Prop) (Q : World -> World -> Prop) (F : framing I Q).

Lemma triple_ret {A} (a : A) : triple I (ret a) Q.
Proof. intros w Hw. by apply F. Qed.

Lemma triple_raise {A} e : triple I (@raise A e) Q.
Proof. intros w Hw. by apply F. Qed.

Lemma triple_gets {A} (f : World -> A) : triple I (gets f) Q.
Proof. intros w Hw. by apply F. Qed.

Lemma triple_modify f : (forall w, I w -> Q w (f w)) -> triple I (modify f) Q.
Proof. intros H w Hw. by apply H. Qed.

Lemma triple_bind {A B} (m : M A) (k : A -> M B) :
  triple I m Q -> (forall a, triple I (k a) Q) -> triple I (a <- m ;; k a) Q.
Proof.
  intros Hm Hk w Hw. unfold bind. specialize (Hm w Hw).
  destruct (m w) as [a w'|e w'|w']; cbn in *; try done.
  eapply (framing_trans _ _ F); [done|done|].
  apply Hk. by eapply (framing_stable _ _ F).
Qed.

Lemma triple_try_except {A} (m : M A) h :
  triple I m Q -> (forall e, triple I (h e) Q) -> triple I (try_except m h) Q.
Proof.
  intros Hm Hh w Hw. unfold try_except. specialize (Hm w Hw).
  destruct (m w) as [a w'|e w'|w']; cbn in *; try done.
  eapply (framing_trans _ _ F); [done|done|].
  apply Hh. by eapply (framing_stable _ _ F).
Qed.

Lemma triple_suppress m : triple I m Q -> triple I (suppress m) Q.
Proof.
  intros Hm w Hw. unfold suppress. specialize (Hm w Hw).
  by destruct (m w).
Qed.

Lemma triple_for_each {A} (body : A -> M unit) xs :
  (forall x, x ∈ xs -> triple I (body x) Q) -> triple I (for_each body xs) Q.
Proof.
  induction xs as [|x xs IH]; intros H; cbn [for_each].
  - apply triple_ret.
  - apply triple_bind; [apply H; apply elem_of_cons; by left|].
    intros _. apply IH. intros y Hy. apply H. apply elem_of_cons. by right.
Qed.

Lemma triple_map_m {A B} (f : A -> M B) xs :
  (forall x, x ∈ xs -> triple I (f x) Q) -> triple I (map_m f xs) Q.
Proof.
  induction xs as [|x xs IH]; intros H; cbn [map_m].
  - apply triple_ret.
  - apply triple_bind; [apply H; apply elem_of_cons; by left|].
    intros y. apply triple_bind; [|intros ys; apply triple_ret].
    apply IH. intros z Hz. apply H. apply elem_of_cons. by right.
Qed.

Lemma triple_while_none {A} fuel (body : M (option A)) :
  triple I body Q -> triple I (while_none fuel body) Q.
Proof.
  intros Hb. induction fuel as [|fuel IH]; cbn [while_none].
  - intros w Hw. by apply F.
  - apply triple_bind; [done|]. intros [a|]; [apply triple_ret|done].
Qed.

Lemma triple_retry {A} (body : M (option A)) :
  triple I body Q -> triple I (retry body) Q.
Proof. intros Hb w Hw. by apply triple_while_none. Qed.

Lemma triple_while fuel cond body :
  triple I body Q -> triple I (while_ fuel cond body) Q.
Proof.
  intros Hb. induction fuel as [|fuel IH]; intros w Hw; cbn [while_].
  - destruct (cond w); by apply F.
  - destruct (cond w); [|by apply F].
    by apply (triple_bind body (fun _ => while_ fuel cond body)).
Qed.

Lemma triple_retry_while cond body :
  triple I body Q -> triple I (retry_while cond body) Q.
Proof. intros Hb w Hw. by apply triple_while. Qed.

Lemma triple_decoded {A} (r : option A) : triple I (decoded r) Q.
Proof. destruct r; [apply triple_ret|apply triple_raise]. Qed.

Lemma triple_client_get url :
  (forall w, I w -> Q w (emit (Get url) w)) ->
  (forall w rest, I w -> Q w (set_net rest w)) ->
  triple I (client_get url) Q.
Proof.
  intros Hemit Hnet w Hw. unfold client_get.
  assert (I (emit (Get url) w)) as Hw' by (eapply (framing_stable _ _ F); eauto).
  destruct (net (emit (Get url) w)) as [|[content|repr] rest]; cbn [final];
    [by apply Hemit|..];
    (eapply (framing_trans _ _ F); [done|by apply Hemit|by apply Hnet]).
Qed.
End Rules.

Ltac triple_step F :=
  lazymatch goal with
  | |- triple _ (ret _) _ => apply (triple_ret _ _ F)
  | |- triple _ (raise _) _ => apply (triple_raise _ _ F)
  | |- triple _ (gets _) _ => apply (triple_gets _ _ F)
  | |- triple _ (decoded _) _ => apply (triple_decoded _ _ F)
  | |- triple _ (bind _ _) _ => apply (triple_bind _ _ F); [|intros ?]
  | |- triple _ (suppress _) _ => apply triple_suppress
  | |- triple _ (try_except _ _) _ => apply (triple_try_except _ _ F); [|intros ?]
  | |- triple _ (retry _) _ => apply (triple_retry _ _ F)
  | |- triple _ (retry_while _ _) _ => apply (triple_retry_while _ _ F)
  | |- triple _ (for_each _ _) _ => apply (triple_for_each _ _ F); intros ? ?
  | |- triple _ (map_m _ _) _ => apply (triple_map_m _ _ F); intros ? ?
  | |- triple _ (print _) _ => unfold print
  | |- triple _ (modify _) _ => apply triple_modify; intros ? ?
  | |- triple _ (client_get _) _ =>
      apply (triple_client_get _ _ F); [intros ? ?|intros ? ? ?]
  | |- triple _ (match ?x with _ => _ end) _ => destruct x
  end.

Ltac triple_steps F := repeat (triple_step F).

(** ** Rules for the calls into the file system and the progress bars *)

Section Calls.
Context (I : World -> Prop) (Q : World -> World -> Prop) (F : framing I Q).

Lemma triple_mkdir_parents d :
  (forall w tree, I w -> Q w (set_fs tree w)) -> triple I (mkdir_parents d) Q.
Proof.
  intros H w Hw. unfold mkdir_parents.
  destruct (fold_left mkdir_step (Path.prefixes d) (Some (fs w))); cbn [final];
    [by apply H|by apply F].
Qed.

Lemma triple_mutagen_load env p : triple I (mutagen_load env p) Q.
Proof.
  intros w Hw. unfold mutagen_load.
  destruct (fs w !! p) as [[|f]|]; [| destruct (mp3_loadable env (file_content f)) |];
    cbn [final]; by apply F.
Qed.

Lemma triple_progress_update task :
  (forall w bars, I w -> Q w (set_progress bars w)) ->
  triple I (progress_update task) Q.
Proof.
  intros H w Hw. unfold progress_update.
  destruct (progress w !! task); cbn [final]; [by apply H|by apply F].
Qed.

Lemma triple_add_task description total :
  (forall w bars, I w -> Q w (set_progress bars w)) ->
  triple I (add_task description total) Q.
Proof. intros H w Hw. unfold add_task. cbn [final]. by apply H. Qed.

End Calls.

Ltac call_step F :=
  lazymatch goal with
  | |- triple _ (mkdir_parents _) _ =>
      apply (triple_mkdir_parents _ _ F); intros ? ? ?
  | |- triple _ (mutagen_load _ _) _ => apply (triple_mutagen_load _ _ F)
  | |- triple _ (mutagen_save _ _ _ _) _ => unfold mutagen_save
  | |- triple _ (write_file _ _ _) _ => unfold write_file
  | |- triple _ (progress_update _) _ =>
      apply (triple_progress_update _ _ F); intros ? ? ?
  | |- triple _ (add_task _ _) _ => apply triple_add_task; intros ? ? ?
  | |- triple _ (fetch_cover _) _ => unfold fetch_cover
  | |- triple _ (fetch_audio _ _) _ => unfold fetch_audio
  | |- triple _ (character_name _) _ => unfold character_name
  | |- triple _ (write_text_tags _ _ _ _ _) _ => unfold write_text_tags
  | |- triple _ (attach_cover _ _ _) _ => unfold attach_cover
  | |- triple _ (download _ _ _ _) _ => unfold download
  | |- triple _ (tag _ _ _ _ _ _) _ => unfold tag
  | |- triple _ (if ?b then _ else _) _ => destruct b
  | |- triple _ (let _ := _ in _) _ => cbv zeta
  | _ => triple_step F
  end.

(** ** The loader keeps the lists of the variant map non-empty *)

Section Loader.

Lemma catalog_nonempty_framing :
  framing catalog_nonempty (fun _ w' => catalog_nonempty w').
Proof. by split. Qed.

Lemma setdefault_append_nonempty v m :
  lists_nonempty m -> lists_nonempty (setdefault_append v m).
Proof.
  intros Hm. unfold setdefault_append. apply map_Forall_insert_2; [|done].
  by destruct (default [] (m !! VocalInfo.musicId v)).
Qed.

Lemma load_body_nonempty env :
  triple catalog_nonempty (load_body env) (fun _ w' => catalog_nonempty w').
Proof.
  unfold load_body.
  triple_steps catalog_nonempty_framing; try done.
  by apply setdefault_append_nonempty.
Qed.

Lemma load_nonempty env :
  triple catalog_nonempty (load env) (fun _ w' => catalog_nonempty w').
Proof.
  unfold load. triple_steps catalog_nonempty_framing. apply load_body_nonempty.
Qed.

Lemma scheduled_lookup w job :
  job ∈ scheduled w ->
  job.1 ∈ musics w /\ vocal_map w !! MusicInfo.id job.1 = Some job.2.
Proof.
  unfold scheduled. intros Hin. apply list_elem_of_In, in_flat_map in Hin.
  destruct Hin as (music & Hmusic & Hjob).
  destruct (vocal_map w !! MusicInfo.id music) as [vocals|] eqn:Hlook; [|done].
  destruct Hjob as [<-|[]]. split; [by apply list_elem_of_In|done].
Qed.

End Loader.

(** C9. In a catalog produced by the loader every key of the map from
    track identifiers to variant lists is bound to a non-empty list, so
    every worker that is scheduled, one per loaded track whose identifier
    is a key of the map, receives at least one variant. *)
Theorem scheduled_workers_get_a_variant (env : Env) (tree : gmap Path.t node)
    (script : list response) (w : World)
    (Hload : load env (start tree script) = Ret tt w) :
  lists_nonempty (vocal_map w) /\
  forall job, job ∈ scheduled w -> job.2 <> [].
Proof.
  assert (Hne : lists_nonempty (vocal_map w)).
  { pose proof (load_nonempty env (start tree script)) as H.
    rewrite Hload in H. apply H. unfold catalog_nonempty, lists_nonempty. cbn.
    apply map_Forall_empty. }
  split; [done|]. intros job [_ Hjob]%scheduled_lookup.
  by apply (Hne _ _ Hjob).
Qed.

Lemma scheduled_workers_get_a_variant_witness :
  lists_nonempty (vocal_map (final (load sample_env (start ∅ clean_pass)))) /\
  forall job, job ∈ scheduled (final (load sample_env (start ∅ clean_pass))) ->
              job.2 <> [].
Proof.
  apply (scheduled_workers_get_a_variant sample_env ∅ clean_pass).
  vm_compute. reflexivity.
Defined.

(** ** The fuel of the retry loops *)

Section Fuel.

Lemma net_shrinks_framing : framing (fun _ => True) net_shrinks.
Proof.
  split; unfold net_shrinks; [lia| |done]. intros w1 w2 w3 _ H12 H23. lia.
Qed.

Lemma client_get_consumes url : consumes (client_get url).
Proof.
  intros w. unfold client_get.
  destruct (net (emit (Get url) w)) as [|[content|repr] rest] eqn:Hnet;
    cbn in *; rewrite ?Hnet; cbn; lia.
Qed.

(** A body that starts with a request consumes, if what follows does not
    lengthen the script. *)
Lemma consumes_bind {A B} (m : M A) (k : A -> M B) :
  consumes m -> (forall a, triple (fun _ => True) (k a) net_shrinks) ->
  consumes (a <- m ;; k a).
Proof.
  intros Hm Hk w. unfold bind. specialize (Hm w).
  destruct (m w) as [a w'|e w'|w']; try done.
  specialize (Hk a w' Logic.I). unfold net_shrinks in Hk.
  destruct (k a w'); cbn in Hk; lia.
Qed.

Lemma consumes_suppress m : consumes m -> consumes (suppress m).
Proof.
  intros Hm w. unfold suppress. specialize (Hm w). destruct (m w); lia.
Qed.

Lemma consumes_try_except {A} (m : M A) h :
  consumes m -> (forall e, triple (fun _ => True) (h e) net_shrinks) ->
  consumes (try_except m h).
Proof.
  intros Hm Hh w. unfold try_except. specialize (Hm w).
  destruct (m w) as [a w'|e w'|w']; try done.
  specialize (Hh e w' Logic.I). unfold net_shrinks in Hh.
  destruct (h e w'); cbn in Hh; lia.
Qed.

Lemma consumes_shrinks {A} (m : M A) :
  consumes m -> triple (fun _ => True) m net_shrinks.
Proof.
  intros Hm w _. specialize (Hm w). unfold net_shrinks.
  destruct (m w); cbn in *; lia.
Qed.

Ltac shrink_step :=
  lazymatch goal with
  | |- triple _ (client_get _) net_shrinks =>
      apply consumes_shrinks, client_get_consumes
  | |- net_shrinks _ _ => unfold net_shrinks; cbn; lia
  | _ => triple_step net_shrinks_framing
  end.

(** More fuel than there are replies is as good as any larger amount. *)
Lemma while_fuel cond body :
  consumes body ->
  forall fuel1 fuel2 w,
    (length (net w) < fuel1)%nat -> (length (net w) < fuel2)%nat ->
    while_ fuel1 cond body w = while_ fuel2 cond body w.
Proof.
  intros Hbody. induction fuel1 as [|fuel1 IH]; intros fuel2 w H1 H2; [lia|].
  destruct fuel2 as [|fuel2]; [lia|]. cbn [while_].
  destruct (cond w); [|done]. unfold bind. specialize (Hbody w).
  destruct (body w) as [[] w'|e w'|w']; try done. apply IH; lia.
Qed.

Lemma while_none_fuel {A} (body : M (option A)) :
  consumes body ->
  forall fuel1 fuel2 w,
    (length (net w) < fuel1)%nat -> (length (net w) < fuel2)%nat ->
    while_none fuel1 body w = while_none fuel2 body w.
Proof.
  intros Hbody. induction fuel1 as [|fuel1 IH]; intros fuel2 w H1 H2; [lia|].
  destruct fuel2 as [|fuel2]; [lia|]. cbn [while_none].
  unfold bind. specialize (Hbody w).
  destruct (body w) as [[a|] w'|e w'|w']; try done. apply IH; lia.
Qed.

Lemma load_body_consumes env : consumes (load_body env).
Proof.
  unfold load_body. apply consumes_bind; [apply client_get_consumes|].
  intros content. repeat shrink_step.
Qed.

Lemma fetch_cover_body_consumes music :
  consumes (try_except (content <- client_get (cover_url music) ;; ret (Some content))
                       (fun _ => ret None)).
Proof.
  apply consumes_try_except.
  - apply consumes_bind; [apply client_get_consumes|].
    intros content. repeat shrink_step.
  - intros e. repeat shrink_step.
Qed.

Lemma fetch_audio_body_consumes vocal name :
  consumes (try_except
              (content <- client_get (audio_url vocal) ;;
               print ("[green] Got " +:+ name) ;;
               ret (Some content))
              (fun e =>
                 print ("[red] " +:+ name +:+ " - " +:+ exn_repr e) ;;
                 ret None)).
Proof.
  apply consumes_try_except.
  - apply consumes_bind; [apply client_get_consumes|].
    intros content. repeat shrink_step.
  - intros e. repeat shrink_step.
Qed.

(** The three retry loops of the program are never stopped by the fuel
    of the model: any larger amount gives the same run. *)
Lemma load_fuel env fuel w :
  (length (net w) < fuel)%nat ->
  while_ fuel no_outside_characters (suppress (load_body env)) w = load env w.
Proof.
  intros Hfuel. apply while_fuel; [|done|unfold retry_fuel; lia].
  apply consumes_suppress, load_body_consumes.
Qed.

Lemma fetch_cover_fuel music fuel w :
  (length (net w) < fuel)%nat ->
  while_none fuel
    (try_except (content <- client_get (cover_url music) ;; ret (Some content))
                (fun _ => ret None)) w = fetch_cover music w.
Proof.
  intros Hfuel. apply while_none_fuel; [|done|unfold retry_fuel; lia].
  apply fetch_cover_body_consumes.
Qed.

Lemma fetch_audio_fuel vocal name fuel w :
  (length (net w) < fuel)%nat ->
  while_none fuel
    (try_except
       (content <- client_get (audio_url vocal) ;;
        print ("[green] Got " +:+ name) ;;
        ret (Some content))
       (fun e => print ("[red] " +:+ name +:+ " - " +:+ exn_repr e) ;; ret None)) w
  = fetch_audio vocal name w.
Proof.
  intros Hfuel. apply while_none_fuel; [|done|unfold retry_fuel; lia].
  apply fetch_audio_body_consumes.
Qed.

(** A loader that returns has found guest characters. *)
Lemma while_exit fuel cond body w w' :
  while_ fuel cond body w = Ret tt w' -> cond w' = false.
Proof.
  revert w. induction fuel as [|fuel IH]; intros w; cbn [while_].
  - destruct (cond w) eqn:Hc; [done|]. by intros [= <-].
  - destruct (cond w) eqn:Hc; [|by intros [= <-]].
    unfold bind. destruct (body w) as [[] w1|e w1|w1]; [apply IH|done..].
Qed.

Lemma load_returns env w w' :
  load env w = Ret tt w' -> outside_characters w' <> ∅.
Proof.
  intros H%while_exit. unfold no_outside_characters in H.
  by apply bool_decide_eq_false in H.
Qed.

End Fuel.

(** ** The loader after a failed attempt *)

Section Accumulation.

Lemma variants_kept_framing : framing (fun _ => True) variants_kept.
Proof.
  split; [| |done].
  - intros w _ k vocals Hk. exists []. by rewrite app_nil_r.
  - intros w1 w2 w3 _ H12 H23 k vocals Hk.
    destruct (H12 k vocals Hk) as (more1 & Hk2).
    destruct (H23 k _ Hk2) as (more2 & Hk3).
    exists (more1 ++ more2)%list. by rewrite app_assoc.
Qed.

Lemma setdefault_append_kept v w :
  variants_kept w (set_vocal_map (setdefault_append v (vocal_map w)) w).
Proof.
  intros k vocals Hk. cbn [vocal_map set_vocal_map]. unfold setdefault_append.
  destruct (decide (VocalInfo.musicId v = k)) as [<-|Hne].
  - exists [v]. by rewrite lookup_insert_eq, Hk.
  - exists []. by rewrite lookup_insert_ne, app_nil_r.
Qed.

(** An attempt of the loader, however it ends, and so the loader itself,
    never takes a variant out of the map: what a failed attempt appended
    is still there when the next attempt appends again. *)
Lemma load_body_keeps_variants env :
  triple (fun _ => True) (load_body env) variants_kept.
Proof.
  unfold load_body. repeat (call_step variants_kept_framing);
    try (apply setdefault_append_kept);
    intros k vocals Hk; exists []; by rewrite app_nil_r.
Qed.

Lemma load_keeps_variants env :
  triple (fun _ => True) (load env) variants_kept.
Proof.
  unfold load. repeat (call_step variants_kept_framing).
  apply load_body_keeps_variants.
Qed.

End Accumulation.

(** C1. What the loader does when an attempt fails after the variants
    were read: the next attempt appends every variant to the list that the
    failed attempt left in the global map. One clean pass binds track 1 to
    one variant; the same pass after an attempt whose third request raised
    binds it to that variant twice. *)
Lemma loader_retry_duplicates_variants :
  (exists w, load sample_env (start ∅ clean_pass) = Ret tt w /\
             vocal_map w !! 1 =
               Some [sample_vocal 7 "sekai" [sample_reference "game_character" 21]]) /\
  (exists w, load sample_env (start ∅ (failed_attempt ++ clean_pass)) = Ret tt w /\
             vocal_map w !! 1 =
               Some [sample_vocal 7 "sekai" [sample_reference "game_character" 21];
                     sample_vocal 7 "sekai" [sample_reference "game_character" 21]]).
Proof.
  split; eexists; (split; [vm_compute; reflexivity|vm_compute; reflexivity]).
Qed.

(** ** The totals of the progress bars *)

Section Totals.

Lemma variant_total_empty : variant_total ∅ = 0%nat.
Proof. apply map_fold_empty. Qed.

Lemma variant_total_insert k vocals (m : gmap Z (list VocalInfo.t)) :
  m !! k = None ->
  variant_total (<[k := vocals]> m) = (length vocals + variant_total m)%nat.
Proof.
  intros Hk. unfold variant_total.
  rewrite map_fold_insert_L; [done| |done]. intros. lia.
Qed.

Lemma loaded_sum_insert_fresh k vocals m l :
  k ∉ List.map MusicInfo.id l ->
  loaded_sum (<[k := vocals]> m) l = loaded_sum m l.
Proof.
  unfold loaded_sum. induction l as [|music l IH]; [done|]. cbn [List.map sum_list].
  intros Hk. apply not_elem_of_cons in Hk as [Hne Hk].
  rewrite lookup_insert_ne by done. by rewrite IH.
Qed.

Lemma loaded_sum_insert_loaded k vocals m l :
  m !! k = None -> NoDup (List.map MusicInfo.id l) -> k ∈ List.map MusicInfo.id l ->
  loaded_sum (<[k := vocals]> m) l = (length vocals + loaded_sum m l)%nat.
Proof.
  intros Hk. induction l as [|music l IH]; cbn [List.map]; intros Hnd Hin.
  - by apply elem_of_nil in Hin.
  - apply NoDup_cons in Hnd as [Hhd Hnd]. unfold loaded_sum. cbn [List.map sum_list].
    fold (loaded_sum (<[k:=vocals]> m) l). fold (loaded_sum m l).
    destruct (decide (k = MusicInfo.id music)) as [->|Hne].
    + rewrite lookup_insert_eq, Hk.
      rewrite loaded_sum_insert_fresh by done. cbn. lia.
    + rewrite lookup_insert_ne by done.
      apply elem_of_cons in Hin as [Heq|Hin]; [done|].
      rewrite IH by done. lia.
Qed.

Lemma filter_zero_sum {A} (f : A -> nat) l :
  sum_list (List.map f (List.filter (fun x => negb (Nat.eqb (f x) 0)) l)) =
  sum_list (List.map f l).
Proof.
  induction l as [|x l IH]; [done|]. cbn [List.filter List.map sum_list].
  destruct (Nat.eqb_spec (f x) 0) as [Hz|Hnz]; cbn [negb];
    cbn [List.map sum_list]; rewrite IH; cbn; [by rewrite Hz|done].
Qed.

Lemma spec_variant_total_loaded_sum w :
  Spec.variant_total w = loaded_sum (vocal_map w) (musics w).
Proof. unfold Spec.variant_total, Spec.tracks_with_variants. apply filter_zero_sum. Qed.

Lemma variant_total_split (m : gmap Z (list VocalInfo.t)) l :
  NoDup (List.map MusicInfo.id l) ->
  variant_total m =
  (loaded_sum m l +
   variant_total (filter (fun kv => kv.1 ∉ List.map MusicInfo.id l) m))%nat.
Proof.
  intros Hnd. induction m as [|k vocals m Hk IH] using map_ind.
  - rewrite map_filter_empty, variant_total_empty. unfold loaded_sum.
    clear Hnd. induction l as [|music l IHl]; [done|]. cbn [List.map sum_list].
    rewrite lookup_empty. cbn. lia.
  - rewrite variant_total_insert by done.
    destruct (decide (k ∈ List.map MusicInfo.id l)) as [Hin|Hout].
    + rewrite loaded_sum_insert_loaded by done.
      rewrite map_filter_insert_False by (cbn; tauto).
      rewrite delete_id by done. lia.
    + rewrite loaded_sum_insert_fresh by done.
      rewrite map_filter_insert_True by done.
      rewrite variant_total_insert by (by rewrite map_lookup_filter_None; left).
      lia.
Qed.

Lemma filter_partition_length {A} (p : A -> bool) l :
  length l = (length (List.filter (fun x => negb (p x)) l) +
              length (List.filter p l))%nat.
Proof.
  induction l as [|x l IH]; [done|]. cbn [List.filter].
  destruct (p x); cbn [negb length]; lia.
Qed.

End Totals.

(** What the two totals are. The total of the track counter is the
    number of all loaded tracks: those with at least one variant and those
    with none. For pairwise distinct track identifiers the total of the
    variant counter is the sum of the variant counts over the tracks that
    have variants, plus the variant counts bound to keys of the map that
    are not identifiers of loaded tracks. *)
Theorem progress_totals (w : World) (Hids : NoDup (List.map MusicInfo.id (musics w))) :
  exists w',
    open_progress w = Ret (0%nat, 1%nat) w' /\
    musics w' = musics w /\ vocal_map w' = vocal_map w /\
    out w' = out w /\
    progress w' =
      [mkTask "[red]Downloading music..."
              (Spec.track_total w + length (tracks_without_variants w)) 0;
       mkTask "[red]Downloading variants..."
              (Spec.variant_total w + variant_total (orphan_variants w)) 0].
Proof.
  eexists. split; [reflexivity|]. cbn. repeat split.
  f_equal; [|f_equal]; f_equal.
  - apply (filter_partition_length
             (fun music => Nat.eqb (length (Spec.variants_of w music)) 0)).
  - rewrite spec_variant_total_loaded_sum. by apply variant_total_split.
Qed.

(** C2. The totals of lines 230 and 234 are taken over all loaded tracks
    and over all lists of the variant map, while lines 244-248 hand out
    work only for a loaded track that is a key of the map. On a catalog
    with a track without variants and two variants of a track that is not
    loaded, the totals are 2 and 3 where the claim has 1 and 1, one worker
    with one variant is scheduled, and the run that ends normally leaves
    the bars at 1 of 2 and 1 of 3: they never show the work as done. *)
Lemma progress_totals_exceed_the_work :
  (exists w',
     open_progress uneven_catalog = Ret (0%nat, 1%nat) w' /\
     List.map task_total (progress w') = [2%nat; 3%nat]) /\
  Spec.track_total uneven_catalog = 1%nat /\
  Spec.variant_total uneven_catalog = 1%nat /\
  length (scheduled uneven_catalog) = 1%nat /\
  scheduled_variants uneven_catalog = 1%nat /\
  returns (download_all sample_env
             (set_net [Response [Byte.x89; Byte.x50]; Response [Byte.xff; Byte.xfb]]
                      uneven_catalog)) = true /\
  progress (final (download_all sample_env
                     (set_net [Response [Byte.x89; Byte.x50];
                               Response [Byte.xff; Byte.xfb]]
                              uneven_catalog))) =
    [mkTask "[red]Downloading music..." 2 1;
     mkTask "[red]Downloading variants..." 3 1].
Proof.
  split; [eexists; split; [reflexivity|]; vm_compute; reflexivity|].
  repeat split; vm_compute; reflexivity.
Qed.

(** ** Character references *)

Section Resolution.

Lemma character_name_lookup c w :
  character_name c w =
  match lookup_name w c with
  | Some name => Ret name w
  | None => Raise (KeyError (Character.characterId c)) w
  end.
Proof.
  unfold character_name, lookup_name.
  destruct (String.eqb (Character.characterType c) "game_character");
    unfold bind, gets; cbn;
    [destruct (game_characters w !! Character.characterId c)
    |destruct (outside_characters w !! Character.characterId c)]; reflexivity.
Qed.

(** Line 111: the tuple of names, or the [KeyError] of the first
    reference that dangles; the world is not touched. *)
Lemma map_m_character_name cs w :
  map_m character_name cs w =
  match resolve w cs with
  | inr names => Ret names w
  | inl k => Raise (KeyError k) w
  end.
Proof.
  induction cs as [|c cs IH]; [reflexivity|].
  cbn [map_m resolve]. unfold bind at 1.
  rewrite character_name_lookup.
  destruct (lookup_name w c) as [name|]; [|reflexivity].
  unfold bind at 1. rewrite IH.
  destruct (resolve w cs); reflexivity.
Qed.

Lemma resolve_dangling w cs c :
  c ∈ cs -> dangling w c = true ->
  exists k c', resolve w cs = inl k /\ c' ∈ cs /\ dangling w c' = true /\
               Character.characterId c' = k.
Proof.
  intros Hin Hc. induction cs as [|d cs IH]; [by apply elem_of_nil in Hin|].
  cbn [resolve]. destruct (lookup_name w d) as [name|] eqn:Hd.
  - apply elem_of_cons in Hin as [->|Hin].
    { unfold dangling in Hc. by rewrite Hd in Hc. }
    destruct (IH Hin) as (k & c' & -> & Hc' & Hdang & Hk).
    exists k, c'. split; [done|]. split; [apply elem_of_cons; by right|done].
  - exists (Character.characterId d), d. split; [done|].
    split; [apply elem_of_cons; by left|]. unfold dangling. by rewrite Hd.
Qed.

Lemma lookup_name_same w w' c :
  same_characters w w' -> lookup_name w' c = lookup_name w c.
Proof. intros [Hg Ho]. unfold lookup_name. by rewrite Hg, Ho. Qed.

Lemma resolve_same w w' cs :
  same_characters w w' -> resolve w' cs = resolve w cs.
Proof.
  intros H. induction cs as [|c cs IH]; [done|]. cbn [resolve].
  by rewrite (lookup_name_same w w' c H), IH.
Qed.

Lemma dangling_same w w' c :
  same_characters w w' -> dangling w' c = dangling w c.
Proof. intros H. unfold dangling. by rewrite (lookup_name_same w w' c H). Qed.

End Resolution.

(** ** Directories *)

Section Directories.

Lemma mkdir_ready tree ps :
  forallb (is_dir tree) ps = true ->
  fold_left mkdir_step ps (Some tree) = Some tree.
Proof.
  induction ps as [|q ps IH]; [done|]. cbn [forallb fold_left mkdir_step].
  intros [Hq Hps]%andb_true_iff. unfold is_dir in Hq.
  destruct (tree !! q) as [[|f]|]; try done. by apply IH.
Qed.

Lemma mkdir_failed ps : fold_left mkdir_step ps None = None.
Proof. by induction ps. Qed.

(** What [mkdir] leaves: the directories that were there, and the ones
    asked for. *)
Lemma mkdir_made ps tree tree' :
  fold_left mkdir_step ps (Some tree) = Some tree' ->
  (forall q, is_dir tree q = true -> is_dir tree' q = true) /\
  (forall q n, tree' !! q = Some (Reg n) <-> tree !! q = Some (Reg n)) /\
  forallb (is_dir tree') ps = true.
Proof.
  revert tree. induction ps as [|p ps IH]; intros tree; cbn [fold_left forallb].
  { intros [= ->]. done. }
  unfold mkdir_step at 2. destruct (tree !! p) as [[|f]|] eqn:Hp.
  - intros (Hkeep & Hreg & Hall)%IH. split; [done|]. split; [done|].
    rewrite Hall, andb_true_r. apply Hkeep. unfold is_dir. by rewrite Hp.
  - by rewrite mkdir_failed.
  - intros (Hkeep & Hreg & Hall)%IH. split; [|split].
    + intros q Hq. apply Hkeep. unfold is_dir in *.
      destruct (decide (p = q)) as [->|Hne]; [by rewrite lookup_insert_eq|].
      by rewrite lookup_insert_ne.
    + intros q n. rewrite Hreg.
      destruct (decide (p = q)) as [->|Hne];
        [rewrite lookup_insert_eq, Hp; split; intros [=]|by rewrite lookup_insert_ne].
    + rewrite Hall, andb_true_r. apply Hkeep. unfold is_dir.
      by rewrite lookup_insert_eq.
Qed.

Lemma set_fs_same w : set_fs (fs w) w = w.
Proof. by destruct w. Qed.

Lemma mkdir_parents_ready d w :
  dirs_ready (fs w) d = true -> mkdir_parents d w = Ret tt w.
Proof.
  intros Hd. unfold mkdir_parents. rewrite (mkdir_ready _ _ Hd).
  by rewrite set_fs_same.
Qed.

Lemma mkdir_parents_made d w w' :
  mkdir_parents d w = Ret tt w' ->
  exists tree, w' = set_fs tree w /\ dirs_ready tree d = true /\
    forall q n, tree !! q = Some (Reg n) <-> fs w !! q = Some (Reg n).
Proof.
  unfold mkdir_parents.
  destruct (fold_left mkdir_step (Path.prefixes d) (Some (fs w))) as [tree|] eqn:Hfold;
    [|done].
  intros [= <-]. exists tree. split; [done|].
  by destruct (mkdir_made _ _ _ Hfold) as (_ & Hreg & Hall).
Qed.

Lemma exists_ready p w :
  tree_ok (fs w) -> path_exists p w = true ->
  dirs_ready (fs w) (Path.parent p) = true.
Proof.
  intros Hok Hp. destruct p as [|part p]; [done|].
  cbn [path_exists] in Hp. apply bool_decide_eq_true in Hp as [n Hn].
  by apply (Hok _ _ Hn).
Qed.

Lemma prefixes_length p q : q ∈ Path.prefixes p -> (length q <= length p)%nat.
Proof.
  revert q. induction p as [|part p IH]; intros q; cbn [Path.prefixes].
  { by intros ?%elem_of_nil. }
  intros [->|Hin]%elem_of_cons; [cbn; lia|].
  apply list_elem_of_In, in_map_iff in Hin as (q' & <- & Hq').
  apply list_elem_of_In, IH in Hq'. cbn. lia.
Qed.

Lemma removelast_length {A} (l : list A) : l <> [] -> S (length (removelast l)) = length l.
Proof.
  induction l as [|x l IH]; [done|]. intros _. destruct l as [|y l]; [done|].
  cbn [removelast length] in *. rewrite IH; done.
Qed.

(** No ancestor of a path is the path. *)
Lemma not_own_ancestor p : p ∉ Path.prefixes (Path.parent p).
Proof.
  destruct p as [|part p]; [apply not_elem_of_nil|].
  intros Hin%prefixes_length. unfold Path.parent in Hin.
  pose proof (removelast_length (part :: p) ltac:(done)) as Hlen. lia.
Qed.

End Directories.

(** ** A variant whose file exists *)

Section Skip.

(** Lines 111-126 for a variant whose file is there. *)
Lemma fetch_vocal_skip env music cover_png cb vocal w names :
  resolve w (VocalInfo.characters vocal) = inr names ->
  dirs_ready (fs w) (Path.parent (Path.of_string (oop_path_arg music vocal names)))
    = true ->
  path_exists (Path.of_string (oop_path_arg music vocal names)) w = true ->
  fetch_vocal env music cover_png cb vocal w =
  cb (emit (already_exists music vocal names) w).
Proof.
  intros Hnames Hd Hp. unfold fetch_vocal. unfold bind at 1.
  rewrite map_m_character_name, Hnames.
  unfold bind at 1. rewrite (mkdir_parents_ready _ _ Hd).
  unfold bind at 1, gets at 1. rewrite Hp. reflexivity.
Qed.

End Skip.

(** ** The character catalogs are read only once loaded *)

Section ReadOnly.

Lemma same_characters_framing : framing (fun _ => True) same_characters.
Proof.
  split; [done| |done]. intros w1 w2 w3 _ [H1 H2] [H3 H4].
  split; congruence.
Qed.

Lemma fetch_vocal_same_characters env music cover_png cb vocal :
  triple (fun _ => True) cb same_characters ->
  triple (fun _ => True) (fetch_vocal env music cover_png cb vocal) same_characters.
Proof.
  intros Hcb. unfold fetch_vocal.
  repeat (call_step same_characters_framing); try done.
Qed.

Lemma fetch_music_same_characters env music vocals cb1 cb2 :
  triple (fun _ => True) cb1 same_characters ->
  triple (fun _ => True) cb2 same_characters ->
  triple (fun _ => True) (fetch_music env music vocals cb1 cb2) same_characters.
Proof.
  intros Hcb1 Hcb2. unfold fetch_music.
  repeat (call_step same_characters_framing); try done.
  by apply fetch_vocal_same_characters.
Qed.

Lemma progress_update_same_characters task :
  triple (fun _ => True) (progress_update task) same_characters.
Proof. repeat (call_step same_characters_framing). done. Qed.

Lemma open_progress_same_characters :
  triple (fun _ => True) open_progress same_characters.
Proof. unfold open_progress. repeat (call_step same_characters_framing); done. Qed.

End ReadOnly.

(** ** Skip on exists *)

Lemma sample_tree_ok : tree_ok sample_tree.
Proof.
  unfold sample_tree, sample_path.
  repeat (apply map_Forall_insert_2; [vm_compute; reflexivity|]).
  apply map_Forall_empty.
Qed.

(** C6. Skip on exists: a variant whose destination path exists when it
    is processed costs one line on the console and one call of the
    variant callback, and the loop goes on with the next variant; nothing
    is requested, written or tagged. With the callback of [main] the
    variant counter advances by one, as it does for a completed variant,
    while the file system and the network script are as before. *)
Theorem skip_on_exists (env : Env) (music : MusicInfo.t) (cover_png : bytes)
    (on_variant_complete : M unit) (vocal : VocalInfo.t) (rest : list VocalInfo.t)
    (w : World) (names : list string)
    (Htree : tree_ok (fs w))
    (Hnames : resolve w (VocalInfo.characters vocal) = inr names)
    (Hexists : path_exists (Path.of_string (oop_path_arg music vocal names)) w = true) :
  fetch_vocal env music cover_png on_variant_complete vocal w =
    on_variant_complete (emit (already_exists music vocal names) w) /\
  for_each (fetch_vocal env music cover_png on_variant_complete) (vocal :: rest) w =
    (on_variant_complete ;;
     for_each (fetch_vocal env music cover_png on_variant_complete) rest)
      (emit (already_exists music vocal names) w) /\
  forall task bar, progress w !! task = Some bar ->
    exists w',
      fetch_vocal env music cover_png (progress_update task) vocal w = Ret tt w' /\
      fs w' = fs w /\ net w' = net w /\
      out w' = (out w ++ [already_exists music vocal names])%list /\
      progress w' = <[task := advance_task bar]> (progress w).
Proof.
  assert (Hskip : forall cb, fetch_vocal env music cover_png cb vocal w =
                              cb (emit (already_exists music vocal names) w)).
  { intros cb. apply fetch_vocal_skip; [done| |done]. by apply exists_ready. }
  split; [apply Hskip|]. split.
  - cbn [for_each]. unfold bind at 1. rewrite Hskip. reflexivity.
  - intros task bar Hbar. eexists. split.
    + rewrite Hskip. unfold progress_update. cbn [progress emit]. rewrite Hbar. reflexivity.
    + cbn. repeat split. apply list_eq. intros i.
      destruct (decide (i = task)) as [->|Hne].
      * rewrite list_lookup_alter_eq, Hbar.
        rewrite list_lookup_insert_eq; [done|]. by eapply lookup_lt_Some.
      * rewrite list_lookup_alter_ne, list_lookup_insert_ne by done. done.
Qed.

Lemma skip_on_exists_witness :
  exists w',
    fetch_vocal sample_env (sample_music "Tell Your World" "kz" "kz" "-") []
      (progress_update 1)
      (sample_vocal 7 "sekai" [sample_reference "game_character" 21])
      (sample_world sample_tree []) = Ret tt w' /\
    fs w' = sample_tree /\ net w' = [] /\
    out w' = [Print "[cyan] kz - Tell Your World - sekai(HatsuneMiku).mp3 already exists."] /\
    progress w' =
      [mkTask "[red]Downloading music..." 1 0;
       mkTask "[red]Downloading variants..." 1 1].
Proof.
  destruct (skip_on_exists sample_env (sample_music "Tell Your World" "kz" "kz" "-") []
              (progress_update 1)
              (sample_vocal 7 "sekai" [sample_reference "game_character" 21]) []
              (sample_world sample_tree []) ["HatsuneMiku"]
              sample_tree_ok eq_refl eq_refl) as (_ & _ & H).
  exact (H 1%nat (mkTask "[red]Downloading variants..." 1 0) eq_refl).
Defined.

(** ** A reference that is not in its catalog *)

Section Fatal.

Lemma fetch_vocal_dangling env music cover_png cb vocal w k :
  resolve w (VocalInfo.characters vocal) = inl k ->
  fetch_vocal env music cover_png cb vocal w = Raise (KeyError k) w.
Proof.
  intros Hk. unfold fetch_vocal. unfold bind at 1.
  by rewrite map_m_character_name, Hk.
Qed.

Lemma for_each_app {A} (body : A -> M unit) pre post w :
  for_each body (pre ++ post) w =
  match for_each body pre w with
  | Ret _ w' => for_each body post w'
  | o => o
  end.
Proof.
  revert w. induction pre as [|x pre IH]; intros w; [reflexivity|].
  cbn [app for_each]. unfold bind. destruct (body x w) as [[] w'|e w'|w']; [|done..].
  apply IH.
Qed.

(** A loop one of whose iterations cannot end normally does not end
    normally. *)
Lemma for_each_fatal {A} (R : World -> World -> Prop) (body : A -> M unit) xs x w :
  framing (fun _ => True) R ->
  (forall y, triple (fun _ => True) (body y) R) ->
  x ∈ xs ->
  (forall w', R w w' -> returns (body x w') = false) ->
  returns (for_each body xs w) = false.
Proof.
  intros F Hbody Hin Hx. revert w Hx.
  induction xs as [|y xs IH]; intros w Hx; [by apply elem_of_nil in Hin|].
  cbn [for_each]. unfold bind.
  destruct (body y w) as [[] w'|e w'|w'] eqn:Hy; [|done..].
  apply elem_of_cons in Hin as [->|Hin].
  - specialize (Hx w (framing_refl _ _ F w Logic.I)). by rewrite Hy in Hx.
  - apply IH; [done|]. intros w'' Hw''. apply Hx.
    pose proof (Hbody y w Logic.I) as Hstep. rewrite Hy in Hstep.
    by apply (framing_trans _ _ F w w' w'').
Qed.

End Fatal.

Section FatalRun.

Lemma fetch_cover_same_characters music :
  triple (fun _ => True) (fetch_cover music) same_characters.
Proof. repeat (call_step same_characters_framing); done. Qed.

Lemma same_characters_trans w1 w2 w3 :
  same_characters w1 w2 -> same_characters w2 w3 -> same_characters w1 w3.
Proof. by apply (framing_trans _ _ same_characters_framing). Qed.

Lemma fetch_music_dangling env music vocals vocal k cb1 cb2 w w0 :
  same_characters w w0 -> vocal ∈ vocals ->
  resolve w (VocalInfo.characters vocal) = inl k ->
  triple (fun _ => True) cb1 same_characters ->
  returns (fetch_music env music vocals cb1 cb2 w0) = false.
Proof.
  intros Hsame Hvocal Hk Hcb. unfold fetch_music. unfold bind at 1.
  pose proof (fetch_cover_same_characters music w0 Logic.I) as Hcover.
  destruct (fetch_cover music w0) as [cover_png w1|e w1|w1]; [|done..].
  cbn [final] in Hcover. unfold bind at 1, print at 1, modify at 1.
  unfold bind at 1.
  set (w2 := emit _ w1).
  assert (Hloop : returns (for_each (fetch_vocal env music cover_png cb1) vocals w2)
                  = false).
  { apply (for_each_fatal same_characters _ _ vocal);
      [apply same_characters_framing| |done|].
    - intros y. by apply fetch_vocal_same_characters.
    - intros w' Hw'. rewrite (fetch_vocal_dangling _ _ _ _ _ _ k); [done|].
      rewrite <- Hk. apply resolve_same.
      apply (same_characters_trans w w0); [done|].
      apply (same_characters_trans w0 w1); [done|].
      apply (same_characters_trans w1 w2); done. }
  by destruct (for_each _ vocals w2).
Qed.

Lemma scheduled_same w w' :
  musics w' = musics w -> vocal_map w' = vocal_map w -> scheduled w' = scheduled w.
Proof. intros Hm Hv. unfold scheduled. by rewrite Hm, Hv. Qed.

Lemma open_progress_returns w :
  exists w', open_progress w = Ret (0%nat, 1%nat) w' /\
             musics w' = musics w /\ vocal_map w' = vocal_map w /\
             same_characters w w' /\ fs w' = fs w /\ out w' = out w /\ net w' = net w.
Proof. eexists. split; [reflexivity|]. done. Qed.

End FatalRun.

(** C7. Reference integrity: a variant with a reference whose identifier
    is absent from the catalog selected by its type makes the character
    lookup raise [KeyError]. Nothing catches it: the worker raises it at
    the point where the variant is reached, without having touched the
    world for that variant, and the run that schedules the worker cannot
    end normally. *)
Theorem dangling_reference_is_fatal (env : Env) (w : World) (music : MusicInfo.t)
    (vocals : list VocalInfo.t) (vocal : VocalInfo.t) (c : Character.t)
    (Hjob : (music, vocals) ∈ scheduled w)
    (Hvocal : vocal ∈ vocals)
    (Hc : c ∈ VocalInfo.characters vocal)
    (Hdangling : dangling w c = true) :
  exists k c',
    c' ∈ VocalInfo.characters vocal /\ dangling w c' = true /\
    Character.characterId c' = k /\
    (forall cover_png cb w1,
        same_characters w w1 ->
        fetch_vocal env music cover_png cb vocal w1 = Raise (KeyError k) w1) /\
    (forall cb1 cb2 before after w0 cover_png w1 w2,
        vocals = (before ++ vocal :: after)%list ->
        fetch_cover music w0 = Ret cover_png w1 ->
        for_each (fetch_vocal env music cover_png cb1) before
          (emit (Print ("[green] Got cover for " +:+ MusicInfo.title music)) w1)
          = Ret tt w2 ->
        same_characters w w2 ->
        fetch_music env music vocals cb1 cb2 w0 = Raise (KeyError k) w2) /\
    returns (download_all env w) = false /\
    (forall w0, load env w0 = Ret tt w -> returns (main env w0) = false).
Proof.
  destruct (resolve_dangling w _ c Hc Hdangling) as (k & c' & Hk & Hc' & Hd' & Hid).
  exists k, c'. do 3 (split; [done|]).
  assert (Hraise : forall cover_png cb w1, same_characters w w1 ->
            fetch_vocal env music cover_png cb vocal w1 = Raise (KeyError k) w1).
  { intros cover_png cb w1 Hsame. apply fetch_vocal_dangling.
    by rewrite (resolve_same w w1). }
  assert (Hrun : returns (download_all env w) = false).
  { unfold download_all. unfold bind at 1.
    destruct (open_progress_returns w) as (w' & -> & Hm & Hv & Hsame & _).
    unfold gather. unfold bind at 1, gets at 1.
    rewrite (scheduled_same w w' Hm Hv).
    apply (for_each_fatal same_characters _ _ (music, vocals));
      [apply same_characters_framing| |done|].
    - intros job. apply fetch_music_same_characters;
        apply progress_update_same_characters.
    - intros w'' Hw''. apply (fetch_music_dangling _ _ _ vocal k _ _ w); try done.
      + by apply (same_characters_trans w w').
      + apply progress_update_same_characters. }
  split; [exact Hraise|]. split; [|split; [exact Hrun|]].
  - intros cb1 cb2 before after w0 cover_png w1 w2 -> Hcover Hbefore Hsame.
    unfold fetch_music. unfold bind at 1. rewrite Hcover.
    unfold bind at 1, print at 1, modify at 1. unfold bind at 1.
    rewrite for_each_app, Hbefore. cbn [for_each]. unfold bind at 1.
    by rewrite (Hraise _ _ _ Hsame).
  - intros w0 Hload. unfold main, bind. rewrite Hload. exact Hrun.
Qed.

Lemma dangling_reference_is_fatal_witness :
  returns (download_all sample_env (broken_world sample_tree [Response []])) = false.
Proof.
  destruct (dangling_reference_is_fatal sample_env
              (broken_world sample_tree [Response []])
              (sample_music "Tell Your World" "kz" "kz" "-")
              [sample_vocal 7 "sekai" [sample_reference "game_character" 21];
               sample_vocal 8 "another" [sample_reference "game_character" 99]]
              (sample_vocal 8 "another" [sample_reference "game_character" 99])
              (sample_reference "game_character" 99))
    as (k & c' & _ & _ & _ & _ & _ & Hrun & _).
  - apply list_elem_of_In. vm_compute. left. reflexivity.
  - apply elem_of_cons. right. apply elem_of_cons. by left.
  - apply elem_of_cons. by left.
  - reflexivity.
  - exact Hrun.
Defined.

(** The run of the witness: the first variant is on disk and skipped, the
    second raises. *)
Example dangling_reference_run :
  exists w',
    download_all sample_env (broken_world sample_tree [Response []]) =
      Raise (KeyError 99) w' /\
    out w' =
      [Get "https://storage.sekai.best/sekai-assets/music/jacket/jacket_001_rip/jacket_001.png";
       Print "[green] Got cover for Tell Your World";
       Print "[cyan] kz - Tell Your World - sekai(HatsuneMiku).mp3 already exists."].
Proof. eexists. split; vm_compute; reflexivity. Qed.

(** ** A run over an output directory that is complete *)

Section SecondRun.
Context (jobs : list (MusicInfo.t * list VocalInfo.t)).

















End SecondRun.






(** ** The output directory stays well formed *)

Section WellFormed.

Lemma prefixes_snoc (d : Path.t) (part : string) :
  Path.prefixes (d ++ [part])%list = (Path.prefixes d ++ [d ++ [part]])%list.
Proof.
  induction d as [|a d IH]; [reflexivity|].
  cbn [app Path.prefixes]. by rewrite IH, map_app.
Qed.

Lemma parent_snoc (d : Path.t) (part : string) :
  Path.parent (d ++ [part])%list = d.
Proof. apply removelast_last. Qed.

Lemma is_dir_insert tree q n r :
  tree !! q = None -> is_dir tree r = true -> is_dir (<[q := n]> tree) r = true.
Proof.
  intros Hq Hr. unfold is_dir in *.
  destruct (decide (q = r)) as [->|Hne]; [by rewrite Hq in Hr|].
  by rewrite lookup_insert_ne.
Qed.

Lemma dirs_ready_insert tree q n d :
  tree !! q = None -> dirs_ready tree d = true ->
  dirs_ready (<[q := n]> tree) d = true.
Proof.
  intros Hq. unfold dirs_ready. rewrite !forallb_forall.
  intros Hd r Hr. by apply is_dir_insert, Hd.
Qed.

(** A new entry in a directory that exists. *)
Lemma tree_ok_insert tree q n :
  tree_ok tree -> tree !! q = None -> dirs_ready tree (Path.parent q) = true ->
  tree_ok (<[q := n]> tree).
Proof.
  intros Hok Hq Hparent. apply map_Forall_insert_2.
  - by apply dirs_ready_insert.
  - intros p m Hp. apply dirs_ready_insert; [done|]. by apply (Hok p m).
Qed.

Lemma mkdir_ok d :
  forall tree tree',
    tree_ok tree ->
    fold_left mkdir_step (Path.prefixes d) (Some tree) = Some tree' ->
    tree_ok tree'.
Proof.
  induction d as [|part d IH] using rev_ind; intros tree tree' Hok.
  { by intros [= <-]. }
  rewrite prefixes_snoc, fold_left_app. cbn [fold_left].
  destruct (fold_left mkdir_step (Path.prefixes d) (Some tree)) as [tree1|] eqn:Hfold;
    [|by cbn].
  pose proof (IH _ _ Hok Hfold) as Hok1.
  destruct (mkdir_made _ _ _ Hfold) as (_ & _ & Hready).
  unfold mkdir_step. destruct (tree1 !! _) as [[|f]|] eqn:Hq; [| done |].
  - by intros [= <-].
  - intros [= <-]. apply tree_ok_insert; [done|done|]. by rewrite parent_snoc.
Qed.

Lemma mkdir_parents_ok d w w' :
  tree_ok (fs w) -> mkdir_parents d w = Ret tt w' ->
  tree_ok (fs w') /\ dirs_ready (fs w') d = true.
Proof.
  intros Hok. unfold mkdir_parents.
  destruct (fold_left mkdir_step (Path.prefixes d) (Some (fs w))) as [tree|] eqn:Hfold;
    [|done].
  intros [= <-]. cbn [fs set_fs]. split; [by eapply mkdir_ok|].
  by destruct (mkdir_made _ _ _ Hfold) as (_ & _ & Hready).
Qed.

Lemma absent_lookup p w : path_exists p w = false -> fs w !! p = None.
Proof.
  destruct p as [|part p]; [done|]. cbn [path_exists].
  intros H%bool_decide_eq_false. by apply eq_None_not_Some.
Qed.

End WellFormed.

(** ** The download and the two tagging passes *)

Section Tagging.

Lemma same_disk_framing : framing (fun _ => True) same_disk.
Proof.
  split; [done| |done]. intros w1 w2 w3 _ [Hf1 Hc1] [Hf2 Hc2]. split; [congruence|].
  by apply (same_characters_trans w1 w2 w3).
Qed.

Lemma fetch_audio_same_disk vocal name :
  triple (fun _ => True) (fetch_audio vocal name) same_disk.
Proof. repeat (call_step same_disk_framing); done. Qed.

Lemma fetch_vocal_download env music cover_png cb vocal w w1 w2 names content :
  resolve w (VocalInfo.characters vocal) = inr names ->
  mkdir_parents (Path.parent (Path.of_string (oop_path_arg music vocal names))) w
    = Ret tt w1 ->
  path_exists (Path.of_string (oop_path_arg music vocal names)) w1 = false ->
  fetch_audio vocal (music_file_name music vocal names) w1 = Ret content w2 ->
  fetch_vocal env music cover_png cb vocal w =
  (tag env music vocal names cover_png
       (Path.of_string (oop_path_arg music vocal names)) ;;
   print ("[green] Saved " +:+ music_file_name music vocal names +:+ " metadata.") ;;
   cb)
    (downloaded env (Path.of_string (oop_path_arg music vocal names))
                (music_file_name music vocal names) content w2).
Proof.
  intros Hnames Hmkdir Habsent Haudio. unfold fetch_vocal. unfold bind at 1.
  rewrite map_m_character_name, Hnames. unfold bind at 1. rewrite Hmkdir.
  unfold bind at 1, gets at 1. rewrite Habsent.
  unfold bind at 1, download at 1. unfold bind at 1. rewrite Haudio.
  reflexivity.
Qed.

Lemma tag_unloadable env music vocal names cover_png p name content w :
  mp3_loadable env content = false ->
  tag env music vocal names cover_png p (downloaded env p name content w) =
  Raise (MutagenError p) (downloaded env p name content w).
Proof.
  intros Hbad. unfold tag, write_text_tags. unfold bind at 1, bind at 1.
  unfold mutagen_load. cbn [downloaded fs emit set_fs].
  rewrite lookup_insert_eq. cbn [untagged file_content]. by rewrite Hbad.
Qed.

(** What the first pass leaves under each key. *)
Lemma text_tags_written music vocal names tags :
  let written := fold_left assign (text_assignments music vocal names) tags in
  text_frames written !! "title" = Some [MusicInfo.title music] /\
  text_frames written !! "artist" = Some (names ++ Spec.author_list music)%list /\
  text_frames written !! "performer" = Some names /\
  text_frames written !! "album" =
    Some ["Project Sekai Soundtrack - " +:+ VocalInfo.musicVocalType vocal] /\
  (forall t, t ∈ ["lyricist"; "composer"; "arranger"] ->
     text_frames written !! t =
       if String.eqb (getattr music t) "-" then text_frames tags !! t
       else Some [getattr music t]) /\
  pictures written = pictures tags.
Proof.
  unfold text_assignments. rewrite <- authors_spec. cbn [flat_map app].
  change (getattr music "lyricist") with (MusicInfo.lyricist music).
  change (getattr music "composer") with (MusicInfo.composer music).
  change (getattr music "arranger") with (MusicInfo.arranger music).
  destruct (String.eqb (MusicInfo.lyricist music) "-") eqn:Hl;
  destruct (String.eqb (MusicInfo.composer music) "-") eqn:Hc;
  destruct (String.eqb (MusicInfo.arranger music) "-") eqn:Ha;
    cbn [negb app fold_left assign fst snd text_frames pictures];
    (split_and!;
     [by simplify_map_eq|by simplify_map_eq|by simplify_map_eq|by simplify_map_eq
     | |reflexivity]);
    intros t Ht;
    repeat (apply elem_of_cons in Ht as [->|Ht]);
    try (by apply elem_of_nil in Ht);
    unfold getattr; cbn [String.eqb Ascii.eqb Bool.eqb]; rewrite ?Hl, ?Hc, ?Ha;
    by simplify_map_eq.
Qed.

End Tagging.

(** ** The run keeps the output directory well formed *)

Section Invariant.

Lemma well_formed_framing : framing well_formed (fun _ w' => well_formed w').
Proof. by split. Qed.

Lemma is_dir_alter tree g p r :
  (forall n, g n = Dir <-> n = Dir) ->
  is_dir (alter g p tree) r = is_dir tree r.
Proof.
  intros Hg. unfold is_dir.
  destruct (decide (p = r)) as [->|Hne]; [|by rewrite lookup_alter_ne].
  rewrite lookup_alter_eq. destruct (tree !! r) as [n|]; [|done]. cbn.
  destruct n as [|f].
  - pose proof (proj2 (Hg Dir) eq_refl) as HD. by rewrite HD.
  - destruct (g (Reg f)) eqn:Hgf; [|done].
    apply (proj1 (Hg (Reg f))) in Hgf. discriminate Hgf.
Qed.

Lemma tree_ok_alter tree g p :
  (forall n, g n = Dir <-> n = Dir) -> tree_ok tree -> tree_ok (alter g p tree).
Proof.
  intros Hg Hok q n.
  assert (Hready : forall m, tree !! q = Some m ->
            dirs_ready (alter g p tree) (Path.parent q) = true).
  { intros m Hm. pose proof (Hok q m Hm) as Hq. cbn beta in Hq.
    unfold dirs_ready in *. rewrite forallb_forall in *.
    intros r Hr. rewrite is_dir_alter by done. by apply Hq. }
  destruct (decide (p = q)) as [->|Hne].
  - rewrite lookup_alter_eq.
    destruct (tree !! q) as [m|] eqn:Hm; [|done]. intros _. by apply (Hready m).
  - rewrite lookup_alter_ne by done. apply Hready.
Qed.

Lemma store_tags_dir env tags n : store_tags env tags n = Dir <-> n = Dir.
Proof. by destruct n. Qed.

Lemma tag_well_formed env music vocal names cover_png p :
  triple well_formed (tag env music vocal names cover_png p)
         (fun _ w' => well_formed w').
Proof.
  repeat (call_step well_formed_framing); try done;
    unfold well_formed in *; cbn [fs emit set_fs];
    by apply tree_ok_alter; [apply store_tags_dir|].
Qed.

Lemma fetch_audio_well_formed vocal name :
  triple well_formed (fetch_audio vocal name) (fun _ w' => well_formed w').
Proof. repeat (call_step well_formed_framing); done. Qed.


Lemma progress_update_well_formed task :
  triple well_formed (progress_update task) (fun _ w' => well_formed w').
Proof. repeat (call_step well_formed_framing); done. Qed.

(** The body of the loop keeps the output directory well formed: the
    file is created in the directory that line 122 made. *)
Lemma fetch_vocal_well_formed env music cover_png cb vocal :
  triple well_formed cb (fun _ w' => well_formed w') ->
  triple well_formed (fetch_vocal env music cover_png cb vocal)
         (fun _ w' => well_formed w').
Proof.
  intros Hcb w Hw. unfold fetch_vocal. unfold bind at 1.
  rewrite map_m_character_name.
  destruct (resolve w (VocalInfo.characters vocal)) as [k|names]; [done|].
  set (p := Path.of_string (oop_path_arg music vocal names)).
  set (name := music_file_name music vocal names).
  unfold bind at 1.
  destruct (mkdir_parents (Path.parent p) w) as [[] w1|e w1|w1] eqn:Hmkdir.
  2,3: unfold mkdir_parents in Hmkdir;
       destruct (fold_left mkdir_step _ _); by inversion Hmkdir; subst.
  destruct (mkdir_parents_ok _ _ _ Hw Hmkdir) as [Hok1 Hready].
  unfold bind at 1, gets at 1.
  destruct (path_exists p w1) eqn:Hp.
  - apply (triple_bind _ _ well_formed_framing (print _) (fun _ => cb)); try done.
    by repeat (call_step well_formed_framing).
  - unfold bind at 1, download at 1. unfold bind at 1.
    pose proof (fetch_audio_same_disk vocal name w1 Logic.I) as [Hfs _].
    destruct (fetch_audio vocal name w1) as [content w2|e w2|w2]; cbn [final] in *;
      [|by unfold well_formed; rewrite Hfs..].
    set (w3 := downloaded env p name content w2).
    change (well_formed
              (final ((tag env music vocal names cover_png p ;;
                       print ("[green] Saved " +:+ name +:+ " metadata.") ;;
                       cb) w3))).
    assert (Hw3 : well_formed w3).
    { unfold well_formed, w3, downloaded. cbn [fs emit set_fs]. rewrite Hfs.
      apply tree_ok_insert; [done|by apply absent_lookup|done]. }
    revert Hw3. generalize w3.
    apply (triple_bind _ _ well_formed_framing); [apply tag_well_formed|].
    intros _. by repeat (call_step well_formed_framing).
Qed.




(** The file that is being tagged stays where it is. *)
Lemma tag_keeps_file env music vocal names cover_png p w :
  is_Some (fs w !! p) ->
  is_Some (fs (final (tag env music vocal names cover_png p w)) !! p).
Proof.
  revert w.
  change (triple (fun w => is_Some (fs w !! p))
                 (tag env music vocal names cover_png p)
                 (fun _ w' => is_Some (fs w' !! p))).
  assert (F : framing (fun w => is_Some (fs w !! p))
                      (fun _ w' => is_Some (fs w' !! p))) by by split.
  repeat (call_step F); try done; cbn [fs emit set_fs];
    rewrite lookup_alter_eq; by apply fmap_is_Some.
Qed.

End Invariant.

(** C8. The audio bytes are on disk before any tag is written: a variant
    that is processed runs the two tagging passes in the world [w3] that
    the download leaves, in which the destination holds the downloaded
    bytes with no tag of the program. However tagging ends, something
    stays at the destination; if mutagen cannot load the bytes, the worker
    raises out of [w3] itself. The test of line 123 looks at the path
    only, so any later run that finds something at the path, whatever its
    tags, skips the variant. *)
Theorem file_is_written_before_it_is_tagged (env : Env) (music : MusicInfo.t)
    (vocal : VocalInfo.t) (cover_png : bytes) (cb : M unit) (w w1 w2 : World)
    (names : list string) (content : bytes)
    (Htree : tree_ok (fs w))
    (Hnames : resolve w (VocalInfo.characters vocal) = inr names)
    (Hmkdir : mkdir_parents
                (Path.parent (Path.of_string (oop_path_arg music vocal names))) w
              = Ret tt w1)
    (Habsent : path_exists (Path.of_string (oop_path_arg music vocal names)) w1 = false)
    (Haudio : fetch_audio vocal (music_file_name music vocal names) w1 = Ret content w2) :
  let p := Path.of_string (oop_path_arg music vocal names) in
  let name := music_file_name music vocal names in
  let w3 := downloaded env p name content w2 in
  fetch_vocal env music cover_png cb vocal w =
    (tag env music vocal names cover_png p ;;
     print ("[green] Saved " +:+ name +:+ " metadata.") ;;
     cb) w3 /\
  (out w3 = out w2 ++ [WriteFile p; Print ("[cyan] Downloaded " +:+ name)])%list /\
  fs w3 !! p = Some (untagged env content) /\
  tree_ok (fs w3) /\
  is_Some (fs (final (tag env music vocal names cover_png p w3)) !! p) /\
  (mp3_loadable env content = false ->
   fetch_vocal env music cover_png cb vocal w = Raise (MutagenError p) w3) /\
  (forall env' cover_png' cb' w',
      tree_ok (fs w') -> same_characters w w' -> is_Some (fs w' !! p) ->
      fetch_vocal env' music cover_png' cb' vocal w' =
      cb' (emit (already_exists music vocal names) w')).
Proof.
  intros p name w3.
  pose proof (fetch_vocal_download env music cover_png cb vocal w w1 w2 names content
                Hnames Hmkdir Habsent Haudio) as Hrun.
  fold p name w3 in Hrun.
  split; [exact Hrun|]. split.
  { unfold w3, downloaded. cbn [out emit set_fs]. by rewrite <- app_assoc. }
  split.
  { unfold w3, downloaded. cbn [fs emit set_fs]. apply lookup_insert_eq. }
  split.
  { destruct (mkdir_parents_ok _ _ _ Htree Hmkdir) as [Hok1 Hready].
    pose proof (fetch_audio_same_disk vocal (music_file_name music vocal names) w1
                  Logic.I) as Hsame.
    rewrite Haudio in Hsame. destruct Hsame as [Hfs _]. cbn [final] in Hfs.
    unfold w3, downloaded. cbn [fs emit set_fs]. rewrite Hfs.
    apply tree_ok_insert; [done|by apply absent_lookup|done]. }
  split.
  { apply tag_keeps_file. unfold w3, downloaded. cbn [fs emit set_fs].
    by rewrite lookup_insert_eq. }
  split.
  { intros Hbad. rewrite Hrun. unfold bind at 1.
    unfold w3. by rewrite tag_unloadable. }
  intros env' cover_png' cb' w' Hok' Hsame Hsome.
  assert (Hexists : path_exists p w' = true).
  { unfold path_exists. destruct p; [done|]. by apply bool_decide_eq_true. }
  apply fetch_vocal_skip; [|by apply exists_ready|done].
  by rewrite (resolve_same w w').
Qed.


Lemma file_is_written_before_it_is_tagged_witness :
  fetch_vocal unloadable_env (sample_music "Tell Your World" "kz" "kz" "-") []
    (progress_update 1)
    (sample_vocal 7 "sekai" [sample_reference "game_character" 21])
    first_run_world =
  Raise
    (MutagenError
       (Path.of_string
          (oop_path_arg (sample_music "Tell Your World" "kz" "kz" "-")
             (sample_vocal 7 "sekai" [sample_reference "game_character" 21])
             ["HatsuneMiku"])))
    (downloaded unloadable_env
       (Path.of_string
          (oop_path_arg (sample_music "Tell Your World" "kz" "kz" "-")
             (sample_vocal 7 "sekai" [sample_reference "game_character" 21])
             ["HatsuneMiku"]))
       (music_file_name (sample_music "Tell Your World" "kz" "kz" "-")
          (sample_vocal 7 "sekai" [sample_reference "game_character" 21])
          ["HatsuneMiku"])
       [Byte.xff; Byte.xfb]
       (final
          (fetch_audio
             (sample_vocal 7 "sekai" [sample_reference "game_character" 21])
             (music_file_name (sample_music "Tell Your World" "kz" "kz" "-")
                (sample_vocal 7 "sekai" [sample_reference "game_character" 21])
                ["HatsuneMiku"])
             (final (mkdir_parents ["Download"; "sekai"] first_run_world))))).
Proof.
  apply (file_is_written_before_it_is_tagged unloadable_env
           (sample_music "Tell Your World" "kz" "kz" "-")
           (sample_vocal 7 "sekai" [sample_reference "game_character" 21])
           [] (progress_update 1) first_run_world
           (final (mkdir_parents ["Download"; "sekai"] first_run_world))
           (final
              (fetch_audio
                 (sample_vocal 7 "sekai" [sample_reference "game_character" 21])
                 (music_file_name (sample_music "Tell Your World" "kz" "kz" "-")
                    (sample_vocal 7 "sekai" [sample_reference "game_character" 21])
                    ["HatsuneMiku"])
                 (final (mkdir_parents ["Download"; "sekai"] first_run_world))))
           ["HatsuneMiku"] [Byte.xff; Byte.xfb]).
  - apply map_Forall_empty.
  - reflexivity.
  - vm_compute. reflexivity.
  - vm_compute. reflexivity.
  - vm_compute. reflexivity.
  - reflexivity.
Defined.

(** ** The text tags that the first pass saves *)

Section FirstPass.

Lemma alter_lookup_insert {A} (g : A -> A) (p : Path.t) (x : A) (m : gmap Path.t A) :
  m !! p = Some x -> alter g p m = <[p := g x]> m.
Proof.
  intros Hp. apply map_eq. intros q. destruct (decide (p = q)) as [<-|Hne].
  - by rewrite lookup_alter_eq, lookup_insert_eq, Hp.
  - by rewrite lookup_alter_ne, lookup_insert_ne.
Qed.

(** What a save leaves of the text frames of a tag. *)
Lemma saved_frames_lookup tags key :
  text_frames (saved_tags tags) !! key = text_frames tags !! key ≫= saved_text.
Proof.
  unfold saved_tags, saved_text. cbn [text_frames].
  destruct (text_frames tags !! key) as [text|] eqn:Hkey; cbn [mbind option_bind].
  - destruct (empty_text text) eqn:Hempty.
    + apply map_lookup_filter_None. right. intros text' Hkey'. cbn. congruence.
    + by apply map_lookup_filter_Some.
  - apply map_lookup_filter_None. by left.
Qed.

Lemma saved_text_present d : is_Some (saved_text [d]) <-> d <> EmptyString.
Proof.
  unfold saved_text, empty_text. destruct (String.eqb_spec d EmptyString) as [->|Hne].
  - split; [by intros [? [=]]|done].
  - split; [done|by eexists].
Qed.

(** The first pass over a file that mutagen can load. *)
Lemma write_text_tags_loadable env p music vocal names f w :
  fs w !! p = Some (Reg f) ->
  mp3_loadable env (file_content f) = true ->
  write_text_tags env p music vocal names w =
  Ret tt
    (emit (SaveTags p)
       (set_fs (<[p := Reg (mkFile (saved_bytes env (first_pass music vocal names f)
                                      (file_content f))
                               (Some (first_pass music vocal names f)))]> (fs w))
               w)).
Proof.
  intros Hfile Hload. unfold write_text_tags, mutagen_save.
  unfold bind, mutagen_load. rewrite Hfile, Hload. unfold modify.
  by rewrite (alter_lookup_insert _ p (Reg f)).
Qed.

Lemma first_pass_frames music vocal names f :
  text_frames (first_pass music vocal names f) !! "title" =
    saved_text [MusicInfo.title music] /\
  text_frames (first_pass music vocal names f) !! "artist" =
    saved_text (names ++ Spec.author_list music)%list /\
  text_frames (first_pass music vocal names f) !! "performer" = saved_text names /\
  text_frames (first_pass music vocal names f) !! "album" =
    Some ["Project Sekai Soundtrack - " +:+ VocalInfo.musicVocalType vocal] /\
  (forall t, t ∈ ["lyricist"; "composer"; "arranger"] ->
     text_frames (first_pass music vocal names f) !! t =
       if String.eqb (getattr music t) "-"
       then (file_tags f ≫= fun tags => text_frames tags !! t) ≫= saved_text
       else saved_text [getattr music t]) /\
  pictures (first_pass music vocal names f) =
    pictures (default empty_tags (file_tags f)).
Proof.
  pose proof (text_tags_written music vocal names (default empty_tags (file_tags f)))
    as (Htitle & Hartist & Hperformer & Halbum & Hauthors & Hpictures).
  unfold first_pass. rewrite !saved_frames_lookup, Htitle, Hartist, Hperformer, Halbum.
  split; [done|]. split; [done|]. split; [done|]. split; [done|]. split; [|done].
  intros t Ht. rewrite saved_frames_lookup, (Hauthors t Ht).
  destruct (String.eqb (getattr music t) "-"); [|done].
  by destruct (file_tags f).
Qed.

End FirstPass.

(** C5. The first tagging pass, lines 146-157, over the file of a variant
    that is processed: the pass returns, and the tag that [save] leaves in
    the file has the track title as title, the character names followed
    by the author list as artist, the character names as performer and
    ["Project Sekai Soundtrack - <variantType>"] as album; each of
    lyricist, composer and arranger is assigned exactly when its value is
    not ["-"], and an empty value, although assigned on line 152, is not
    in the file, because [save] writes no text frame without text. So in
    a file that carried no tag, the frame of an author is there exactly
    when the value is neither ["-"] nor empty. The same holds of the
    other frames: one whose text is empty is absent from the file. *)
Theorem phase_one_tags (env : Env) (music : MusicInfo.t) (vocal : VocalInfo.t)
    (names : list string) (p : Path.t) (f : File) (w : World)
    (Hfile : fs w !! p = Some (Reg f))
    (Hload : mp3_loadable env (file_content f) = true) :
  exists w',
    write_text_tags env p music vocal names w = Ret tt w' /\
    tag_on_disk w' p "title" = saved_text [MusicInfo.title music] /\
    (forall t, t ∈ ["lyricist"; "composer"; "arranger"] ->
       tag_on_disk w' p t =
         if String.eqb (getattr music t) "-"
         then (file_tags f ≫= fun tags => text_frames tags !! t) ≫= saved_text
         else saved_text [getattr music t]) /\
    (file_tags f = None ->
     forall t, t ∈ ["lyricist"; "composer"; "arranger"] ->
       is_Some (tag_on_disk w' p t) <->
       getattr music t <> "-" /\ getattr music t <> EmptyString) /\
    tag_on_disk w' p "artist" = saved_text (names ++ Spec.author_list music)%list /\
    tag_on_disk w' p "performer" = saved_text names /\
    tag_on_disk w' p "album" =
      Some ["Project Sekai Soundtrack - " +:+ VocalInfo.musicVocalType vocal].
Proof.
  pose proof (first_pass_frames music vocal names f)
    as (Htitle & Hartist & Hperformer & Halbum & Hauthors & _).
  eexists. split; [by apply write_text_tags_loadable|].
  assert (Hdisk : forall key,
            tag_on_disk
              (emit (SaveTags p)
                 (set_fs (<[p := Reg (mkFile (saved_bytes env (first_pass music vocal names f)
                                                (file_content f))
                                         (Some (first_pass music vocal names f)))]> (fs w))
                         w)) p key =
            text_frames (first_pass music vocal names f) !! key).
  { intros key. unfold tag_on_disk. cbn [fs emit set_fs]. by rewrite lookup_insert_eq. }
  rewrite !Hdisk. split; [done|]. split.
  { intros t Ht. by rewrite Hdisk, (Hauthors t Ht). }
  split; [|done].
  intros Hnone t Ht. rewrite Hdisk, (Hauthors t Ht), Hnone. cbn [mbind option_bind].
  destruct (String.eqb_spec (getattr music t) "-") as [Hd|Hd].
  - split; [by intros [? [=]]|by intros [? _]].
  - rewrite saved_text_present. tauto.
Qed.

Lemma phase_one_tags_witness :
  exists w',
    write_text_tags sample_env sample_path
      (sample_music "Tell Your World" EmptyString "kz" "-")
      (sample_vocal 7 "sekai" [sample_reference "game_character" 21])
      ["HatsuneMiku"]
      (downloaded sample_env sample_path "kz - Tell Your World - sekai(HatsuneMiku).mp3"
         [Byte.xff; Byte.xfb] (sample_world ∅ [])) = Ret tt w' /\
    tag_on_disk w' sample_path "title" = Some ["Tell Your World"] /\
    tag_on_disk w' sample_path "lyricist" = None /\
    tag_on_disk w' sample_path "composer" = Some ["kz"] /\
    tag_on_disk w' sample_path "arranger" = None /\
    tag_on_disk w' sample_path "artist" = Some ["HatsuneMiku"; "kz"] /\
    tag_on_disk w' sample_path "performer" = Some ["HatsuneMiku"].
Proof.
  destruct (phase_one_tags sample_env
              (sample_music "Tell Your World" EmptyString "kz" "-")
              (sample_vocal 7 "sekai" [sample_reference "game_character" 21])
              ["HatsuneMiku"] sample_path (mkFile [Byte.xff; Byte.xfb] None)
              (downloaded sample_env sample_path
                 "kz - Tell Your World - sekai(HatsuneMiku).mp3"
                 [Byte.xff; Byte.xfb] (sample_world ∅ [])))
    as (w' & Hrun & Htitle & Hauthors & _ & Hartist & Hperformer & _).
  - vm_compute. reflexivity.
  - reflexivity.
  - exists w'. split; [exact Hrun|]. split; [exact Htitle|].
    split; [apply (Hauthors "lyricist"); set_solver|].
    split; [apply (Hauthors "composer"); set_solver|].
    split; [apply (Hauthors "arranger"); set_solver|].
    split; [exact Hartist|exact Hperformer].
Defined.

(** * Further properties of the code *)

(** ** The author list and the file name *)

Section Names.

Lemma dedup_elem x l : x ∈ Spec.dedup l <-> x ∈ l.
Proof.
  induction l as [|y l IH]; [done|]. cbn [Spec.dedup].
  rewrite !elem_of_cons, <- IH, !list_elem_of_In, List.filter_In, <- !list_elem_of_In.
  destruct (String.eqb_spec x y) as [->|Hne]; cbn; intuition congruence.
Qed.

Lemma dedup_NoDup l : NoDup (Spec.dedup l).
Proof.
  induction l as [|y l IH]; [constructor|]. cbn [Spec.dedup].
  apply NoDup_cons. split.
  - rewrite list_elem_of_In, List.filter_In, String.eqb_refl. cbn. intuition congruence.
  - by apply NoDup_ListNoDup, List.NoDup_filter, NoDup_ListNoDup.
Qed.

Lemma filter_length_le {A} (P : A -> bool) l :
  (length (List.filter P l) <= length l)%nat.
Proof. induction l as [|x l IH]; [done|]. cbn. destruct (P x); cbn; lia. Qed.

Lemma dedup_length l : (length (Spec.dedup l) <= length l)%nat.
Proof.
  induction l as [|y l IH]; [done|]. cbn [Spec.dedup length].
  pose proof (filter_length_le (fun z => negb (String.eqb z y)) (Spec.dedup l)). lia.
Qed.

Lemma named_spec a : Spec.named a = true <-> a <> EmptyString /\ a <> "-".
Proof.
  unfold Spec.named. rewrite andb_true_iff, !negb_true_iff.
  by rewrite !String.eqb_neq.
Qed.

Lemma replace_all_app s1 s2 :
  replace_all (s1 +:+ s2) = replace_all s1 +:+ replace_all s2.
Proof.
  induction s1 as [|c s1 IH]; [reflexivity|].
  rewrite append_cons, !replace_all_cons, IH. reflexivity.
Qed.

Lemma sanitize_char_idem c :
  Spec.sanitize_char (Spec.sanitize_char c) = Spec.sanitize_char c.
Proof.
  unfold Spec.sanitize_char at 1. by rewrite sanitize_char_not_forbidden.
Qed.

End Names.

(** X1. The author list of lines 96-100 has no duplicates and at most
    three entries, and its entries are exactly the values among lyricist,
    composer and arranger that are neither empty nor ["-"]. *)
Theorem authors_facts (music : MusicInfo.t) :
  NoDup (authors music) /\
  (length (authors music) <= 3)%nat /\
  forall a, a ∈ authors music <->
    a ∈ [MusicInfo.lyricist music; MusicInfo.composer music; MusicInfo.arranger music]
    /\ a <> EmptyString /\ a <> "-".
Proof.
  rewrite authors_spec. unfold Spec.author_list. split; [apply dedup_NoDup|]. split.
  - etransitivity; [apply dedup_length|]. apply (filter_length_le Spec.named [_; _; _]).
  - intros a. rewrite dedup_elem, list_elem_of_In, List.filter_In, <- list_elem_of_In.
    by rewrite named_spec.
Qed.

(** X2. The replacement loop of lines 119-120 keeps the length of the
    name, changes nothing when it is run again on its result, goes through
    concatenation, and acts position by position: a character of line 119
    becomes [_] and any other character stays where it is. *)
Theorem replace_all_facts (s t : string) :
  String.length (replace_all s) = String.length s /\
  replace_all (replace_all s) = replace_all s /\
  replace_all (s +:+ t) = replace_all s +:+ replace_all t /\
  forall i, String.get i (replace_all s) =
            (fun c => if bool_decide (c ∈ repl_chars) then "_"%char else c)
              <$> String.get i s.
Proof.
  split; [by rewrite replace_all_sanitize, sanitize_length|]. split.
  { induction s as [|c s IH]; [reflexivity|].
    by rewrite !replace_all_cons, sanitize_char_idem, IH. }
  split; [apply replace_all_app|].
  induction s as [|c s IH]; intros i; [reflexivity|].
  rewrite replace_all_cons. destruct i as [|i]; cbn [String.get]; [|apply IH].
  reflexivity.
Qed.

(** ** One attempt of the loader *)

Section Attempt.

Lemma client_get_response url w content rest :
  net w = Response content :: rest ->
  client_get url w = Ret content (set_net rest (emit (Get url) w)).
Proof. intros Hnet. unfold client_get. cbn [net emit]. by rewrite Hnet. Qed.

Lemma client_get_error url w repr rest :
  net w = RequestError repr :: rest ->
  client_get url w = Raise (HTTPError repr) (set_net rest (emit (Get url) w)).
Proof. intros Hnet. unfold client_get. cbn [net emit]. by rewrite Hnet. Qed.

Lemma client_get_starved url w :
  net w = [] -> client_get url w = Starved (emit (Get url) w).
Proof. intros Hnet. unfold client_get. cbn [net emit]. by rewrite Hnet. Qed.

(** Lines 193-201 on elements that all parse. *)
Lemma append_parsed vs w :
  for_each (fun item =>
              v <- decoded item ;;
              modify (fun w => set_vocal_map (setdefault_append v (vocal_map w)) w))
           (List.map Some vs) w =
  Ret tt (set_vocal_map (append_all vs (vocal_map w)) w).
Proof.
  revert w. induction vs as [|v vs IH]; intros w.
  - cbn. by destruct w.
  - cbn [List.map for_each]. unfold bind at 1. cbn. rewrite IH. reflexivity.
Qed.

(** Lines 193-201 on elements the first of which to fail is preceded by
    [before]: the lazy [map] has let the loop body run on all of [before]. *)
Lemma append_until_failure before after w :
  for_each (fun item =>
              v <- decoded item ;;
              modify (fun w => set_vocal_map (setdefault_append v (vocal_map w)) w))
           (List.map Some before ++ None :: after) w =
  Raise ValidationError (set_vocal_map (append_all before (vocal_map w)) w).
Proof.
  revert w. induction before as [|v vs IH]; intros w.
  - cbn. by destruct w.
  - cbn [List.map app for_each]. unfold bind at 1. cbn. rewrite IH. reflexivity.
Qed.

Lemma variants_for_snoc k vs v :
  variants_for k (vs ++ [v]) =
  (variants_for k vs ++ if Z.eqb (VocalInfo.musicId v) k then [v] else [])%list.
Proof. unfold variants_for. by rewrite List.filter_app. Qed.

(** What is bound to a key once [vs] is appended. *)
Lemma append_all_lookup vs m k :
  append_all vs m !! k =
  match m !! k, variants_for k vs with
  | None, [] => None
  | o, l => Some (default [] o ++ l)%list
  end.
Proof.
  induction vs as [|v vs IH] using rev_ind.
  - cbn. destruct (m !! k); [by rewrite app_nil_r|done].
  - unfold append_all in *. rewrite fold_left_app. cbn [fold_left].
    rewrite variants_for_snoc. unfold setdefault_append at 1.
    destruct (Z.eqb_spec (VocalInfo.musicId v) k) as [->|Hne].
    + rewrite lookup_insert_eq, IH.
      destruct (m !! k) as [old|]; cbn [default].
      * destruct (variants_for k vs); cbn; by rewrite <- ?app_assoc.
      * destruct (variants_for k vs); cbn; done.
    + rewrite lookup_insert_ne by done. rewrite IH, app_nil_r. reflexivity.
Qed.

Lemma dict_by_id_snoc {A} (key : A -> Z) es e :
  dict_by_id key (es ++ [e]) = <[key e := e]> (dict_by_id key es).
Proof. unfold dict_by_id. by rewrite fold_left_app. Qed.

Lemma dict_by_id_nonempty {A} (key : A -> Z) es :
  es <> [] -> dict_by_id key es <> ∅.
Proof.
  destruct es as [|e es _] using rev_ind; [done|]. intros _.
  rewrite dict_by_id_snoc. apply insert_non_empty.
Qed.

Lemma dict_by_id_lookup {A} (key : A -> Z) es k :
  dict_by_id key es !! k = last (List.filter (fun e => Z.eqb (key e) k) es).
Proof.
  induction es as [|e es IH] using rev_ind; [done|].
  rewrite dict_by_id_snoc, List.filter_app. cbn [List.filter].
  destruct (Z.eqb_spec (key e) k) as [->|Hne].
  - by rewrite lookup_insert_eq, last_snoc.
  - by rewrite lookup_insert_ne, app_nil_r.
Qed.

End Attempt.

(** An attempt in which the four requests are answered and decoded. *)
Lemma load_body_clean (env : Env) (w : World) (c1 c2 c3 c4 : bytes)
    (rest : list response) (ms : list MusicInfo.t) (vs : list VocalInfo.t)
    (gs : list GameCharacter.t) (os : list OutsideCharacter.t)
    (Hnet : net w = Response c1 :: Response c2 :: Response c3 :: Response c4 :: rest)
    (Hms : parse_musics env c1 = Some ms)
    (Hvs : parse_vocals env c2 = Some (List.map Some vs))
    (Hgs : parse_game_characters env c3 = Some gs)
    (Hos : parse_outside_characters env c4 = Some os) :
  exists w',
    load_body env w = Ret tt w' /\
    musics w' = ms /\
    vocal_map w' = append_all vs (vocal_map w) /\
    game_characters w' = dict_by_id GameCharacter.id gs /\
    outside_characters w' = dict_by_id OutsideCharacter.id os /\
    fs w' = fs w /\ progress w' = progress w /\ net w' = rest /\
    out w' = (out w ++ clean_attempt_events)%list.
Proof.
  eexists. split.
  - unfold load_body.
    unfold bind at 1. rewrite (client_get_response _ _ _ _ Hnet).
    unfold bind at 1. rewrite Hms. cbn [decoded ret].
    unfold bind at 1. cbn [modify]. unfold bind at 1. cbn [print modify].
    unfold bind at 1. erewrite client_get_response by (cbn; reflexivity).
    unfold bind at 1. rewrite Hvs. cbn [decoded ret].
    unfold bind at 1. rewrite append_parsed.
    unfold bind at 1. cbn [print modify].
    unfold bind at 1. erewrite client_get_response by (cbn; reflexivity).
    unfold bind at 1. rewrite Hgs. cbn [decoded ret].
    unfold bind at 1. cbn [modify]. unfold bind at 1. cbn [print modify].
    unfold bind at 1. erewrite client_get_response by (cbn; reflexivity).
    unfold bind at 1. rewrite Hos. cbn [decoded ret].
    unfold bind at 1. cbn [modify]. cbn [print modify]. reflexivity.
  - cbn. repeat split; try done.
    by rewrite <- !app_assoc.
Qed.

(** X3. An attempt of the loader whose four requests are answered and
    decoded returns after exactly these four requests: [musics] and the
    two character dicts are replaced by what was decoded, while every list
    of the variant map is the list that was there followed by the decoded
    variants of that track, in order; files and progress bars are not
    touched. *)
Theorem attempt_postcondition (env : Env) (w : World) (c1 c2 c3 c4 : bytes)
    (rest : list response) (ms : list MusicInfo.t) (vs : list VocalInfo.t)
    (gs : list GameCharacter.t) (os : list OutsideCharacter.t)
    (Hnet : net w = Response c1 :: Response c2 :: Response c3 :: Response c4 :: rest)
    (Hms : parse_musics env c1 = Some ms)
    (Hvs : parse_vocals env c2 = Some (List.map Some vs))
    (Hgs : parse_game_characters env c3 = Some gs)
    (Hos : parse_outside_characters env c4 = Some os) :
  exists w',
    load_body env w = Ret tt w' /\
    musics w' = ms /\
    (forall k, vocal_map w' !! k =
               match vocal_map w !! k, variants_for k vs with
               | None, [] => None
               | o, l => Some (default [] o ++ l)%list
               end) /\
    game_characters w' = dict_by_id GameCharacter.id gs /\
    outside_characters w' = dict_by_id OutsideCharacter.id os /\
    fs w' = fs w /\ progress w' = progress w /\ net w' = rest /\
    out w' = (out w ++ clean_attempt_events)%list.
Proof.
  destruct (load_body_clean env w c1 c2 c3 c4 rest ms vs gs os Hnet Hms Hvs Hgs Hos)
    as (w' & Hbody & Hmusics & Hmap & Hrest).
  exists w'. split; [exact Hbody|]. split; [exact Hmusics|]. split; [|exact Hrest].
  intros k. rewrite Hmap. apply append_all_lookup.
Qed.

Lemma attempt_postcondition_witness :
  exists w',
    load_body sample_env (start ∅ clean_pass) = Ret tt w' /\
    musics w' = [sample_music "Tell Your World" "kz" "kz" "-"] /\
    (forall k, vocal_map w' !! k =
               match vocal_map (start ∅ clean_pass) !! k,
                     variants_for k
                       [sample_vocal 7 "sekai" [sample_reference "game_character" 21]]
               with
               | None, [] => None
               | o, l => Some (default [] o ++ l)%list
               end) /\
    game_characters w' =
      dict_by_id GameCharacter.id [sample_game_character 21 "Hatsune" "Miku"] /\
    outside_characters w' =
      dict_by_id OutsideCharacter.id [OutsideCharacter.mk 1 1 "Guest"] /\
    fs w' = fs (start ∅ clean_pass) /\
    progress w' = progress (start ∅ clean_pass) /\
    net w' = [] /\
    out w' = (out (start ∅ clean_pass) ++ clean_attempt_events)%list.
Proof.
  apply (attempt_postcondition sample_env (start ∅ clean_pass)
           payload_musics payload_vocals payload_game_characters
           payload_outside_characters []); reflexivity.
Defined.

(** X4. The variants are parsed one at a time while the loop of line 193
    runs: when an element of musicVocals.json fails to parse, the attempt
    raises (and the [suppress] of line 181 swallows it) after the variants
    before that element were appended to the map and [musics] was
    replaced; the character dicts are as before and the remaining two
    requests are not sent. *)
Theorem attempt_stops_at_bad_variant (env : Env) (w : World) (c1 c2 : bytes)
    (rest : list response) (ms : list MusicInfo.t)
    (before : list VocalInfo.t) (after : list (option VocalInfo.t))
    (Hnet : net w = Response c1 :: Response c2 :: rest)
    (Hms : parse_musics env c1 = Some ms)
    (Hvs : parse_vocals env c2 = Some (List.map Some before ++ None :: after)%list) :
  exists w',
    load_body env w = Raise ValidationError w' /\
    suppress (load_body env) w = Ret tt w' /\
    musics w' = ms /\
    (forall k, vocal_map w' !! k =
               match vocal_map w !! k, variants_for k before with
               | None, [] => None
               | o, l => Some (default [] o ++ l)%list
               end) /\
    game_characters w' = game_characters w /\
    outside_characters w' = outside_characters w /\
    net w' = rest /\
    out w' = (out w ++ [Get musics_url; Print "[cyan]Fetched music list.";
                        Get vocals_url])%list.
Proof.
  assert (Hbody : load_body env w =
                  Raise ValidationError
                    (set_vocal_map
                       (append_all before (vocal_map w))
                       (set_net rest
                          (emit (Get vocals_url)
                             (emit (Print "[cyan]Fetched music list.")
                                (set_musics ms
                                   (set_net (Response c2 :: rest)
                                      (emit (Get musics_url) w)))))))).
  { unfold load_body.
    unfold bind at 1. rewrite (client_get_response _ _ _ _ Hnet).
    unfold bind at 1. rewrite Hms. cbn [decoded ret].
    unfold bind at 1. cbn [modify]. unfold bind at 1. cbn [print modify].
    unfold bind at 1. erewrite client_get_response by (cbn; reflexivity).
    unfold bind at 1. rewrite Hvs. cbn [decoded ret].
    unfold bind at 1. rewrite append_until_failure. reflexivity. }
  eexists. split; [exact Hbody|]. split; [unfold suppress; by rewrite Hbody|].
  cbn. repeat split; try done.
  - intros k. apply append_all_lookup.
  - by rewrite <- !app_assoc.
Qed.

Lemma attempt_stops_at_bad_variant_witness :
  exists w',
    load_body
      (mkEnv (parse_musics sample_env)
             (fun _ => Some (List.map Some
                               [sample_vocal 7 "sekai" []; sample_vocal 8 "another" []]
                             ++ None :: [Some (sample_vocal 9 "third" [])])%list)
             (parse_game_characters sample_env)
             (parse_outside_characters sample_env)
             (mp3_loadable sample_env) (embedded_tags sample_env)
             (saved_bytes sample_env))
      (start ∅ clean_pass) = Raise ValidationError w' /\
    vocal_map w' !! 1 =
      Some [sample_vocal 7 "sekai" []; sample_vocal 8 "another" []] /\
    net w' = [Response payload_game_characters; Response payload_outside_characters].
Proof.
  destruct (attempt_stops_at_bad_variant
              (mkEnv (parse_musics sample_env)
                 (fun _ => Some (List.map Some
                                   [sample_vocal 7 "sekai" []; sample_vocal 8 "another" []]
                                 ++ None :: [Some (sample_vocal 9 "third" [])])%list)
                 (parse_game_characters sample_env)
                 (parse_outside_characters sample_env)
                 (mp3_loadable sample_env) (embedded_tags sample_env)
             (saved_bytes sample_env))
              (start ∅ clean_pass) payload_musics payload_vocals
              [Response payload_game_characters; Response payload_outside_characters]
              [sample_music "Tell Your World" "kz" "kz" "-"]
              [sample_vocal 7 "sekai" []; sample_vocal 8 "another" []]
              [Some (sample_vocal 9 "third" [])]
              eq_refl eq_refl eq_refl)
    as (w' & Hbody & _ & _ & Hmap & _ & _ & Hnet & _).
  exists w'. split; [exact Hbody|]. split; [|exact Hnet].
  rewrite Hmap. reflexivity.
Defined.

(** X5. The dict comprehensions of lines 203-225 bind an identifier to
    the last element of the dataset that carries it, and give an empty
    dict only for an empty dataset. *)
Theorem dict_by_id_keeps_last {A : Type} (key : A -> Z) (es : list A) (k : Z) :
  dict_by_id key es !! k = last (List.filter (fun e => Z.eqb (key e) k) es) /\
  (dict_by_id key es = ∅ <-> es = []).
Proof.
  split; [apply dict_by_id_lookup|]. split.
  - intros Hempty. destruct es as [|e es]; [done|].
    by destruct (dict_by_id_nonempty key (e :: es)).
  - by intros ->.
Qed.

(** ** The loop of the loader *)

Section LoaderLoop.

Lemma while_done fuel cond body w :
  cond w = false -> while_ fuel cond body w = Ret tt w.
Proof. intros H. destruct fuel; cbn [while_]; by rewrite H. Qed.

Lemma no_outside_characters_true w :
  outside_characters w = ∅ -> no_outside_characters w = true.
Proof. intros H. unfold no_outside_characters. by apply bool_decide_eq_true. Qed.

Lemma no_outside_characters_false w :
  outside_characters w <> ∅ -> no_outside_characters w = false.
Proof. intros H. unfold no_outside_characters. by apply bool_decide_eq_false. Qed.

Lemma triple_decoded_bind {A B} (I : World -> Prop) (Q : World -> World -> Prop)
    (F : framing I Q) (r : option A) (k : A -> M B) :
  (forall a, r = Some a -> triple I (k a) Q) ->
  triple I (a <- decoded r ;; k a) Q.
Proof.
  intros Hk. destruct r as [a|].
  - intros w Hw. unfold bind. cbn. by apply Hk.
  - intros w Hw. unfold bind. cbn. by apply F.
Qed.

Lemma while_stuck (I : World -> Prop) cond body :
  (forall w, I w -> cond w = true) ->
  triple I body (fun _ w' => I w') ->
  forall fuel w, I w -> returns (while_ fuel cond body w) = false.
Proof.
  intros Hcond Hbody. induction fuel as [|fuel IH]; intros w Hw; cbn [while_].
  - by rewrite (Hcond w Hw).
  - rewrite (Hcond w Hw). unfold bind. specialize (Hbody w Hw).
    destruct (body w) as [[] w'|e w'|w']; [by apply IH|done..].
Qed.

Lemma no_guests_framing :
  framing (fun w => outside_characters w = ∅)
          (fun _ w' => outside_characters w' = ∅).
Proof. by split. Qed.

Lemma load_body_no_guests env :
  (forall b os, parse_outside_characters env b = Some os -> os = []) ->
  triple (fun w => outside_characters w = ∅) (load_body env)
         (fun _ w' => outside_characters w' = ∅).
Proof.
  intros Hnone. unfold load_body.
  repeat lazymatch goal with
         | |- triple _ (bind (decoded (parse_outside_characters _ _)) _) _ =>
             apply (triple_decoded_bind _ _ no_guests_framing);
             intros parsed Hparsed
         | _ => call_step no_guests_framing
         end; try done.
  cbn. by rewrite (Hnone _ _ Hparsed).
Qed.

End LoaderLoop.

(** X6. Started without guest characters, the loader ends after one
    attempt when the four requests are answered and decoded and the guest
    dataset is not empty: four requests are sent and the rest of the
    script is left for the workers. *)
Theorem load_ends_after_clean_pass (env : Env) (w : World) (c1 c2 c3 c4 : bytes)
    (rest : list response) (ms : list MusicInfo.t) (vs : list VocalInfo.t)
    (gs : list GameCharacter.t) (os : list OutsideCharacter.t)
    (Hempty : outside_characters w = ∅)
    (Hnet : net w = Response c1 :: Response c2 :: Response c3 :: Response c4 :: rest)
    (Hms : parse_musics env c1 = Some ms)
    (Hvs : parse_vocals env c2 = Some (List.map Some vs))
    (Hgs : parse_game_characters env c3 = Some gs)
    (Hos : parse_outside_characters env c4 = Some os)
    (Hguests : os <> []) :
  exists w',
    load env w = Ret tt w' /\ load_body env w = Ret tt w' /\
    net w' = rest /\ out w' = (out w ++ clean_attempt_events)%list.
Proof.
  destruct (load_body_clean env w c1 c2 c3 c4 rest ms vs gs os
              Hnet Hms Hvs Hgs Hos)
    as (w' & Hbody & _ & _ & _ & Hout' & _ & _ & Hnet' & Hout).
  exists w'. split; [|done].
  unfold load, retry_while, retry_fuel. cbn [while_].
  rewrite (no_outside_characters_true w Hempty).
  unfold bind, suppress. rewrite Hbody. apply while_done.
  apply no_outside_characters_false. rewrite Hout'.
  by apply dict_by_id_nonempty.
Qed.

Lemma load_ends_after_clean_pass_witness :
  exists w',
    load sample_env (start ∅ clean_pass) = Ret tt w' /\
    load_body sample_env (start ∅ clean_pass) = Ret tt w' /\
    net w' = [] /\
    out w' = (out (start ∅ clean_pass) ++ clean_attempt_events)%list.
Proof.
  apply (load_ends_after_clean_pass sample_env (start ∅ clean_pass)
           payload_musics payload_vocals payload_game_characters
           payload_outside_characters []
           [sample_music "Tell Your World" "kz" "kz" "-"]
           [sample_vocal 7 "sekai" [sample_reference "game_character" 21]]
           [sample_game_character 21 "Hatsune" "Miku"]
           [OutsideCharacter.mk 1 1 "Guest"]); done.
Defined.

(** X7. The loop of line 180 tests the guest dict only: when the guest
    dataset never decodes to a non-empty list, the loader does not return,
    whatever the network answers, and neither does [main]. *)
Theorem load_needs_a_guest (env : Env) (w : World)
    (Hnone : forall b os, parse_outside_characters env b = Some os -> os = [])
    (Hempty : outside_characters w = ∅) :
  returns (load env w) = false /\ returns (main env w) = false.
Proof.
  assert (Hload : returns (load env w) = false).
  { unfold load, retry_while.
    apply (while_stuck (fun w => outside_characters w = ∅)); [| |done].
    - apply no_outside_characters_true.
    - apply triple_suppress. by apply load_body_no_guests. }
  split; [exact Hload|]. unfold main, bind. by destruct (load env w).
Qed.

Lemma load_needs_a_guest_witness :
  returns
    (load (mkEnv (parse_musics sample_env) (parse_vocals sample_env)
                 (parse_game_characters sample_env) (fun _ => Some [])
                 (mp3_loadable sample_env) (embedded_tags sample_env)
             (saved_bytes sample_env))
          (start ∅ (clean_pass ++ clean_pass))) = false /\
  returns
    (main (mkEnv (parse_musics sample_env) (parse_vocals sample_env)
                 (parse_game_characters sample_env) (fun _ => Some [])
                 (mp3_loadable sample_env) (embedded_tags sample_env)
             (saved_bytes sample_env))
          (start ∅ (clean_pass ++ clean_pass))) = false.
Proof.
  apply load_needs_a_guest; [|reflexivity].
  intros b os H. by injection H as <-.
Defined.

(** ** The two fetch loops of a worker *)

Section FetchLoops.

Lemma retry_again {A} (body : M (option A)) w w1 r :
  body w = Ret None w1 -> net w = r :: net w1 -> retry body w = retry body w1.
Proof.
  intros Hbody Hnet. unfold retry, retry_fuel. rewrite Hnet.
  cbn [length while_none]. unfold bind. by rewrite Hbody.
Qed.

Lemma retry_done {A} (body : M (option A)) w w1 a :
  body w = Ret (Some a) w1 -> retry body w = Ret a w1.
Proof.
  intros Hbody. unfold retry, retry_fuel. cbn [while_none]. unfold bind.
  by rewrite Hbody.
Qed.

Lemma retry_starved {A} (body : M (option A)) w w1 :
  body w = Starved w1 -> retry body w = Starved w1.
Proof.
  intros Hbody. unfold retry, retry_fuel. cbn [while_none]. unfold bind.
  by rewrite Hbody.
Qed.

Lemma same_state_refl w : same_state w w.
Proof. by repeat split. Qed.

Lemma same_state_trans w1 w2 w3 :
  same_state w1 w2 -> same_state w2 w3 -> same_state w1 w3.
Proof.
  intros (?&?&?&?&?&?) (?&?&?&?&?&?). repeat split; congruence.
Qed.

End FetchLoops.

(** X8. The cover loop of lines 101-108 never raises. It sends one request
    for every exception at the head of the script and one more; if that
    one is answered, the loop returns the content of the answer, whatever
    it is, and leaves the rest of the script, and if the script is over
    the loop is still waiting. Nothing but the script and the console
    changes. *)
Theorem fetch_cover_absorbs_errors (music : MusicInfo.t) (w : World) :
  exists w',
    same_state w w' /\
    out w' = (out w ++ replicate (S (length (leading_errors (net w)).1))
                                 (Get (cover_url music)))%list /\
    match (leading_errors (net w)).2 with
    | Some (content, rest) => fetch_cover music w = Ret content w' /\ net w' = rest
    | None => fetch_cover music w = Starved w' /\ net w' = []
    end.
Proof.
  remember (net w) as script eqn:Hnet. symmetry in Hnet. revert w Hnet.
  unfold fetch_cover.
  induction script as [|[content|repr] script IH]; intros w Hnet.
  - eexists. split; [|split]; [| |split; [apply retry_starved|]].
    3:{ unfold try_except, bind. by rewrite (client_get_starved _ _ Hnet). }
    all: cbn; by repeat split.
  - eexists. split; [|split]; [| |split; [apply retry_done|]].
    3:{ unfold try_except, bind. by rewrite (client_get_response _ _ _ _ Hnet). }
    all: cbn; by repeat split.
  - set (w1 := set_net script (emit (Get (cover_url music)) w)).
    destruct (IH w1 eq_refl) as (w' & Hsame & Hout & Hrun).
    exists w'. split; [|split].
    + apply (same_state_trans w w1 w'); [by repeat split|done].
    + rewrite Hout. cbn. by rewrite <- app_assoc.
    + rewrite (retry_again _ w w1 (RequestError repr)); [exact Hrun| |by rewrite Hnet].
      unfold try_except, bind. by rewrite (client_get_error _ _ _ _ Hnet).
Qed.

(** X9. The audio loop of lines 134-142 never raises either: every
    exception at the head of the script costs one request and one red
    line that shows the exception, and the first answer is returned after
    one green line. *)
Theorem fetch_audio_absorbs_errors (vocal : VocalInfo.t) (name : string) (w : World) :
  exists w',
    same_state w w' /\
    out w' = (out w ++ audio_events (audio_url vocal) name (net w))%list /\
    match (leading_errors (net w)).2 with
    | Some (content, rest) => fetch_audio vocal name w = Ret content w' /\ net w' = rest
    | None => fetch_audio vocal name w = Starved w' /\ net w' = []
    end.
Proof.
  remember (net w) as script eqn:Hnet. symmetry in Hnet. revert w Hnet.
  unfold fetch_audio, audio_events.
  induction script as [|[content|repr] script IH]; intros w Hnet.
  - eexists. split; [|split]; [| |split; [apply retry_starved|]].
    3:{ unfold try_except, bind. by rewrite (client_get_starved _ _ Hnet). }
    all: cbn; by repeat split.
  - eexists. split; [|split]; [| |split; [apply retry_done|]].
    3:{ unfold try_except, bind. rewrite (client_get_response _ _ _ _ Hnet).
        cbn. reflexivity. }
    all: cbn; try (by repeat split). by rewrite <- app_assoc.
  - set (w1 := emit (Print ("[red] " +:+ name +:+ " - " +:+ repr))
                 (set_net script (emit (Get (audio_url vocal)) w))).
    destruct (IH w1 eq_refl) as (w' & Hsame & Hout & Hrun).
    exists w'. split; [|split].
    + apply (same_state_trans w w1 w'); [by repeat split|done].
    + rewrite Hout. cbn. by rewrite <- !app_assoc.
    + rewrite (retry_again _ w w1 (RequestError repr)); [exact Hrun| |by rewrite Hnet].
      unfold try_except, bind. rewrite (client_get_error _ _ _ _ Hnet).
      cbn. reflexivity.
Qed.

(** ** The two tagging passes over a loadable file *)

Section TagPasses.

Lemma saved_text_twice (o : option (list string)) :
  (o ≫= saved_text) ≫= saved_text = o ≫= saved_text.
Proof.
  destruct o as [text|]; [|done]. cbn [mbind option_bind]. unfold saved_text.
  destruct (empty_text text) eqn:Hempty; [done|]. cbn [mbind option_bind].
  by rewrite Hempty.
Qed.

(** The second pass changes no text frame of a tag that was saved. *)
Lemma second_pass_frames cover_png music vocal names f key :
  text_frames (second_pass cover_png (first_pass music vocal names f)) !! key =
  text_frames (first_pass music vocal names f) !! key.
Proof.
  unfold second_pass. rewrite saved_frames_lookup. cbn [id3_add text_frames].
  unfold first_pass at 1. rewrite saved_frames_lookup, saved_text_twice.
  unfold first_pass. by rewrite saved_frames_lookup.
Qed.

(** The two passes over a file that mutagen can load, before the first
    save and after it. *)
Lemma tag_loadable env music vocal names cover_png p f w :
  fs w !! p = Some (Reg f) ->
  mp3_loadable env (file_content f) = true ->
  mp3_loadable env (saved_bytes env (first_pass music vocal names f) (file_content f))
    = true ->
  tag env music vocal names cover_png p w =
  Ret tt
    (emit (SaveCover p)
       (emit (SaveTags p)
          (set_fs (<[p := Reg (tagged env music vocal names cover_png f)]> (fs w)) w))).
Proof.
  intros Hfile Hload Hload2. unfold tag. unfold bind at 1.
  rewrite (write_text_tags_loadable env p music vocal names f w Hfile Hload).
  unfold attach_cover, mutagen_save. unfold bind, mutagen_load.
  cbn [fs emit set_fs]. rewrite lookup_insert_eq. cbn [file_content file_tags].
  rewrite Hload2. unfold modify. cbn [fs emit set_fs].
  rewrite (alter_lookup_insert _ p _ _ (lookup_insert_eq _ _ _)).
  cbn [store_tags file_content]. by rewrite insert_insert_eq.
Qed.

End TagPasses.

(** X10. The two tagging passes of lines 146-168 over a file that mutagen
    can load, before the first save and after it: the call returns after
    one save of the text frames and one save of the cover, in that order.
    The file then holds what the second save made of what the first save
    made of the bytes that were there. In its tag, title, artist (the
    characters, then the authors), performer and album are the values
    assigned, and each of lyricist, composer and arranger is the value of
    the track unless that value is ["-"], in which case the frame the
    file had is left; but a frame whose text is empty is not in the file.
    The cover is stored under its description, in place of a picture the
    file had under the same description, and the other pictures are
    kept. Nothing else in the file system changes. *)
Theorem tag_postcondition (env : Env) (music : MusicInfo.t) (vocal : VocalInfo.t)
    (names : list string) (cover_png : bytes) (p : Path.t) (f : File) (w : World)
    (Hfile : fs w !! p = Some (Reg f))
    (Hload : mp3_loadable env (file_content f) = true)
    (Hload2 : mp3_loadable env
                (saved_bytes env (first_pass music vocal names f) (file_content f))
              = true) :
  exists w',
    tag env music vocal names cover_png p w = Ret tt w' /\
    same_catalog w w' /\ net w' = net w /\ progress w' = progress w /\
    out w' = (out w ++ [SaveTags p; SaveCover p])%list /\
    fs w' = <[p := Reg (tagged env music vocal names cover_png f)]> (fs w) /\
    tag_on_disk w' p "title" = saved_text [MusicInfo.title music] /\
    tag_on_disk w' p "artist" = saved_text (names ++ authors music)%list /\
    tag_on_disk w' p "performer" = saved_text names /\
    tag_on_disk w' p "album" =
      Some ["Project Sekai Soundtrack - " +:+ VocalInfo.musicVocalType vocal] /\
    (forall t, t ∈ ["lyricist"; "composer"; "arranger"] ->
       tag_on_disk w' p t =
         if String.eqb (getattr music t) "-"
         then (file_tags f ≫= fun tags => text_frames tags !! t) ≫= saved_text
         else saved_text [getattr music t]) /\
    pictures (second_pass cover_png (first_pass music vocal names f)) =
      <["Cover (front)" := cover_frame cover_png]>
        (pictures (default empty_tags (file_tags f))).
Proof.
  pose proof (first_pass_frames music vocal names f)
    as (Htitle & Hartist & Hperformer & Halbum & Hauthors & Hpictures).
  rewrite <- authors_spec in Hartist.
  eexists. split; [by apply (tag_loadable env music vocal names cover_png p f)|].
  assert (Hdisk : forall key,
            tag_on_disk
              (emit (SaveCover p)
                 (emit (SaveTags p)
                    (set_fs (<[p := Reg (tagged env music vocal names cover_png f)]>
                               (fs w)) w))) p key =
            text_frames (first_pass music vocal names f) !! key).
  { intros key. unfold tag_on_disk. cbn [fs emit set_fs].
    rewrite lookup_insert_eq. cbn [tagged file_tags]. apply second_pass_frames. }
  rewrite !Hdisk.
  cbn [fs emit set_fs out net musics vocal_map game_characters outside_characters
       progress].
  split; [done|]. split; [done|]. split; [done|]. split; [by rewrite <- app_assoc|].
  split; [done|]. split; [done|]. split; [done|]. split; [done|]. split; [done|].
  split.
  { intros t Ht. by rewrite Hdisk, (Hauthors t Ht). }
  cbn [second_pass saved_tags id3_add pictures cover_frame apic_desc].
  by rewrite Hpictures.
Qed.

Lemma tag_postcondition_witness :
  exists w',
    tag sample_env (sample_music "Tell Your World" EmptyString "kz" "-")
        (sample_vocal 7 "sekai" [sample_reference "game_character" 21])
        ["HatsuneMiku"] [Byte.x89; Byte.x50] sample_path
        (sample_world sample_tree []) = Ret tt w' /\
    out w' = [SaveTags sample_path; SaveCover sample_path] /\
    tag_on_disk w' sample_path "artist" = Some ["HatsuneMiku"; "kz"] /\
    tag_on_disk w' sample_path "lyricist" = None /\
    tag_on_disk w' sample_path "arranger" = None.
Proof.
  destruct (tag_postcondition sample_env
              (sample_music "Tell Your World" EmptyString "kz" "-")
              (sample_vocal 7 "sekai" [sample_reference "game_character" 21])
              ["HatsuneMiku"] [Byte.x89; Byte.x50] sample_path
              (mkFile [Byte.x49; Byte.x44; Byte.x33] None)
              (sample_world sample_tree []))
    as (w' & Hrun & _ & _ & _ & Hout & _ & _ & Hartist & _ & _ & Hauthors & _).
  - vm_compute. reflexivity.
  - reflexivity.
  - reflexivity.
  - exists w'. split; [exact Hrun|]. split; [exact Hout|].
    split; [exact Hartist|].
    split; [apply (Hauthors "lyricist")|apply (Hauthors "arranger")]; set_solver.
Defined.

(** ** What the workers leave alone *)

Section Workers.

(** The variant callback is the last thing an iteration does. *)
Lemma fetch_vocal_then env music cover_png cb vocal w :
  fetch_vocal env music cover_png cb vocal w =
  (fetch_vocal env music cover_png (ret tt) vocal ;; cb) w.
Proof.
  unfold fetch_vocal, bind, gets, print, modify, ret.
  repeat case_match; simplify_eq; reflexivity.
Qed.

Lemma triple_fetch_vocal I Q (F : framing I Q) env music cover_png cb vocal :
  triple I (fetch_vocal env music cover_png (ret tt) vocal) Q ->
  triple I cb Q ->
  triple I (fetch_vocal env music cover_png cb vocal) Q.
Proof.
  intros Hbody Hcb w Hw. rewrite fetch_vocal_then. revert w Hw.
  by apply (triple_bind _ _ F).
Qed.

Lemma same_catalog_framing : framing (fun _ => True) same_catalog.
Proof.
  split; [done| |done].
  intros w1 w2 w3 _ (? & ? & ? & ?) (? & ? & ? & ?). repeat split; congruence.
Qed.

Lemma mkdir_only_adds ps :
  forall tree tree',
    fold_left mkdir_step ps (Some tree) = Some tree' ->
    (forall q n, tree !! q = Some n -> tree' !! q = Some n) /\
    (forall q, tree !! q = None -> is_Some (tree' !! q) -> q ∈ ps).
Proof.
  induction ps as [|p ps IH]; intros tree tree'; cbn [fold_left].
  { intros [= <-]. split; [done|]. intros q -> [n Hn]. done. }
  unfold mkdir_step at 2. destruct (tree !! p) as [[|f]|] eqn:Hp.
  - intros [Hkeep Hnew]%IH. split; [done|].
    intros q Hq Hsome. apply elem_of_cons. right. by apply Hnew.
  - by rewrite mkdir_failed.
  - intros [Hkeep Hnew]%IH. split.
    + intros q n Hq. apply Hkeep. rewrite lookup_insert_ne; [done|]. congruence.
    + intros q Hq Hsome. apply elem_of_cons.
      destruct (decide (q = p)) as [->|Hne]; [by left|right].
      apply Hnew; [|done]. by rewrite lookup_insert_ne.
Qed.




Lemma prefixes_parent p q :
  q ∈ Path.prefixes (Path.parent p) -> q ∈ Path.prefixes p.
Proof.
  destruct p as [|part p] using rev_ind; [done|].
  rewrite parent_snoc, prefixes_snoc. intros Hq. apply elem_of_app. by left.
Qed.

Lemma prefixes_self p : p <> [] -> p ∈ Path.prefixes p.
Proof.
  destruct p as [|part p] using rev_ind; [done|]. intros _.
  rewrite prefixes_snoc. apply elem_of_app. right. by apply list_elem_of_singleton.
Qed.

Lemma only_adds_framing P : framing (fun _ => True) (only_adds P).
Proof.
  split; [|intros w1 w2 w3 _ [Hkeep1 Hnew1] [Hkeep2 Hnew2]|done].
  - intros w _. split; [done|]. intros p -> [n Hn]. done.
  - split; [by intros p n ?%Hkeep1%Hkeep2|].
    intros p Hp Hsome. destruct (fs w2 !! p) as [n|] eqn:Hp2.
    + apply Hnew1; [done|]. by rewrite Hp2.
    + by apply Hnew2.
Qed.

Lemma same_elsewhere_framing p : framing (fun _ => True) (same_elsewhere p).
Proof.
  split; [done| |done]. intros w1 w2 w3 _ H1 H2 q Hq.
  by rewrite (H2 q Hq), (H1 q Hq).
Qed.

Lemma tag_same_elsewhere env music vocal names cover_png p name :
  triple (fun _ => True)
         (tag env music vocal names cover_png p ;;
          print ("[green] Saved " +:+ name +:+ " metadata.") ;; ret tt)
         (same_elsewhere p).
Proof.
  repeat (call_step (same_elsewhere_framing p)); try done;
    intros q Hq; cbn [fs emit set_fs]; by rewrite lookup_alter_ne.
Qed.

(** One iteration of the loop of line 110 without its callback: what was
    in the file system stays, and what is new is a directory on the way
    to the destination or the destination. *)
Lemma fetch_vocal_only_adds (P : Path.t -> Prop) env music cover_png vocal :
  (forall names q,
      q ∈ Path.prefixes (Path.of_string (oop_path_arg music vocal names)) -> P q) ->
  triple (fun _ => True) (fetch_vocal env music cover_png (ret tt) vocal)
         (only_adds P).
Proof.
  intros HP. pose proof (only_adds_framing P) as F.
  intros w _. unfold fetch_vocal. unfold bind at 1.
  rewrite map_m_character_name.
  destruct (resolve w (VocalInfo.characters vocal)) as [k|names];
    [by apply F|].
  pose proof (of_string_oop_path music vocal names) as Hpath.
  specialize (HP names).
  set (p := Path.of_string (oop_path_arg music vocal names)) in *.
  set (name := music_file_name music vocal names) in *.
  unfold bind at 1, mkdir_parents at 1.
  destruct (fold_left mkdir_step (Path.prefixes (Path.parent p)) (Some (fs w)))
    as [tree|] eqn:Hfold; [|by apply F].
  destruct (mkdir_only_adds _ _ _ Hfold) as [Hkeep Hnew].
  assert (Hdirs : forall q, q ∈ Path.prefixes (Path.parent p) -> P q).
  { intros q Hq. by apply HP, prefixes_parent. }
  assert (Hdest : P p).
  { apply HP, prefixes_self. by rewrite Hpath. }
  assert (Hmade : only_adds P w (set_fs tree w)).
  { split; [done|]. intros q Hq Hsome. apply Hdirs. by apply Hnew. }
  unfold bind at 1, gets at 1.
  destruct (path_exists p (set_fs tree w)) eqn:Hp.
  { unfold bind, print, modify, ret. exact Hmade. }
  apply absent_lookup in Hp. cbn [fs set_fs] in Hp.
  unfold bind at 1, download at 1. unfold bind at 1.
  pose proof (fetch_audio_same_disk vocal name (set_fs tree w) Logic.I) as [Hfs _].
  destruct (fetch_audio vocal name (set_fs tree w)) as [content w2|e w2|w2];
    cbn [final fs set_fs] in *.
  2,3: (split; [intros q n Hq|intros q Hq Hsome]; rewrite Hfs in *;
        [by apply Hkeep|apply Hdirs; by apply Hnew]).
  set (w3 := downloaded env p name content w2).
  change (only_adds P w
            (final ((tag env music vocal names cover_png p ;;
                     print ("[green] Saved " +:+ name +:+ " metadata.") ;;
                     ret tt) w3))).
  pose proof (tag_same_elsewhere env music vocal names cover_png p name w3 Logic.I)
    as Htag.
  set (w5 := final _) in *.
  assert (Hw3 : forall q, q <> p -> fs w5 !! q = tree !! q).
  { intros q Hq. rewrite (Htag q Hq). unfold w3, downloaded. cbn [fs emit set_fs].
    by rewrite lookup_insert_ne, Hfs. }
  split.
  - intros q n Hq. apply Hkeep in Hq. rewrite Hw3; [done|]. congruence.
  - intros q Hq Hsome. destruct (decide (q = p)) as [->|Hne]; [done|].
    rewrite Hw3 in Hsome by done. apply Hdirs. by apply Hnew.
Qed.

Lemma same_fs_only_adds P (w w' : World) :
  fs w' = fs w -> only_adds P w w'.
Proof. intros Hfs. split; [by rewrite Hfs|]. intros p Hp [n Hn]. congruence. Qed.

Lemma fetch_music_only_adds (P : Path.t -> Prop) env music vocals task1 task2 :
  (forall vocal names q,
      vocal ∈ vocals ->
      q ∈ Path.prefixes (Path.of_string (oop_path_arg music vocal names)) -> P q) ->
  triple (fun _ => True)
         (fetch_music env music vocals (progress_update task1) (progress_update task2))
         (only_adds P).
Proof.
  intros HP. pose proof (only_adds_framing P) as F. unfold fetch_music.
  repeat (call_step F); try (by apply same_fs_only_adds).
  apply (triple_fetch_vocal _ _ F).
  - apply fetch_vocal_only_adds. intros names q. by apply HP.
  - repeat (call_step F). by apply same_fs_only_adds.
Qed.

Lemma download_all_only_adds (P : Path.t -> Prop) env w :
  (forall job vocal names q,
      job ∈ scheduled w -> vocal ∈ job.2 ->
      q ∈ Path.prefixes (Path.of_string (oop_path_arg job.1 vocal names)) -> P q) ->
  only_adds P w (final (download_all env w)).
Proof.
  intros HP. pose proof (only_adds_framing P) as F.
  unfold download_all. unfold bind at 1.
  destruct (open_progress_returns w) as (w0 & -> & Hm & Hv & _ & Hfs & _).
  apply (framing_trans _ _ F w w0); [done|by apply same_fs_only_adds|].
  unfold gather. unfold bind at 1, gets at 1. cbn [fst snd].
  rewrite (scheduled_same w w0 Hm Hv).
  apply (triple_for_each _ _ F); [|done].
  intros job Hjob. apply fetch_music_only_adds.
  intros vocal names q Hvocal. by apply (HP job).
Qed.


End Workers.

(** X11. Once the loader is done the catalogs are read only: however the
    downloads end, the track list, the variant map and the two character
    catalogs are the ones the run started with, and so are the jobs that
    the scheduler would hand out. *)
Theorem catalog_is_read_only (env : Env) (w : World) :
  same_catalog w (final (download_all env w)) /\
  scheduled (final (download_all env w)) = scheduled w.
Proof.
  assert (H : same_catalog w (final (download_all env w))).
  { enough (Hrun : triple (fun _ => True) (download_all env) same_catalog)
      by exact (Hrun w Logic.I).
    unfold download_all, open_progress, gather, fetch_music.
    repeat (call_step same_catalog_framing); try done.
    apply (triple_fetch_vocal _ _ same_catalog_framing).
    - unfold fetch_vocal. repeat (call_step same_catalog_framing); done.
    - repeat (call_step same_catalog_framing); done. }
  split; [exact H|]. destruct H as (Hm & Hv & _). by apply scheduled_same.
Qed.





(** ** The progress bars when the run is over *)

Section Bars.

Lemma bind_returns {A B} (m : M A) (k : A -> M B) w b w' :
  (x <- m ;; k x) w = Ret b w' ->
  exists a w1, m w = Ret a w1 /\ k a w1 = Ret b w'.
Proof.
  unfold bind. destruct (m w) as [a w1|e w1|w1]; [|done..].
  intros Hk. by exists a, w1.
Qed.

Lemma same_progress_framing :
  framing (fun _ => True) (fun w w' => progress w' = progress w).
Proof. split; [done| |done]. intros w1 w2 w3 _ H1 H2. congruence. Qed.

Lemma fetch_vocal_same_progress env music cover_png vocal :
  triple (fun _ => True) (fetch_vocal env music cover_png (ret tt) vocal)
         (fun w w' => progress w' = progress w).
Proof. unfold fetch_vocal. repeat (call_step same_progress_framing); done. Qed.

Lemma fetch_cover_same_progress music :
  triple (fun _ => True) (fetch_cover music) (fun w w' => progress w' = progress w).
Proof. repeat (call_step same_progress_framing); done. Qed.

Lemma progress_update_returns task w w' :
  progress_update task w = Ret tt w' ->
  progress w' = alter advance_task task (progress w).
Proof.
  unfold progress_update. destruct (progress w !! task); [|done].
  by intros [= <-].
Qed.

Lemma advance_by_plus a b t : advance_by a (advance_by b t) = advance_by (a + b) t.
Proof. unfold advance_by. cbn. f_equal. lia. Qed.

Lemma advance_task_by t : advance_task t = advance_by 1 t.
Proof. reflexivity. Qed.

Lemma advance_by_zero t : advance_by 0 t = t.
Proof. by destruct t. Qed.

(** The variants of a track, with the callback of [main]: every
    iteration that ends advances the variant bar by one. *)
Lemma variants_advance env music cover_png vocals :
  forall w w' t0 t1,
    progress w = [t0; t1] ->
    for_each (fetch_vocal env music cover_png (progress_update 1)) vocals w = Ret tt w' ->
    progress w' = [t0; advance_by (length vocals) t1].
Proof.
  induction vocals as [|vocal vocals IH]; intros w w' t0 t1 Hbars; cbn [for_each].
  { intros [= <-]. by rewrite advance_by_zero. }
  intros ([] & w2 & Hvocal & Hrest)%bind_returns.
  rewrite fetch_vocal_then in Hvocal.
  apply bind_returns in Hvocal as ([] & w1 & Hbody & Hcb).
  pose proof (fetch_vocal_same_progress env music cover_png vocal w Logic.I) as Hsame.
  rewrite Hbody in Hsame. cbn [final] in Hsame.
  apply progress_update_returns in Hcb. rewrite Hsame, Hbars in Hcb. cbn in Hcb.
  rewrite (IH _ _ _ _ Hcb Hrest), advance_task_by, advance_by_plus.
  cbn [length]. do 3 f_equal. lia.
Qed.

Lemma fetch_music_advances env music vocals w w' t0 t1 :
  progress w = [t0; t1] ->
  fetch_music env music vocals (progress_update 1) (progress_update 0) w = Ret tt w' ->
  progress w' = [advance_by 1 t0; advance_by (length vocals) t1].
Proof.
  intros Hbars. unfold fetch_music.
  intros (cover_png & w1 & Hcover & Hrest)%bind_returns.
  pose proof (fetch_cover_same_progress music w Logic.I) as Hsame.
  rewrite Hcover in Hsame. cbn [final] in Hsame.
  apply bind_returns in Hrest as ([] & w2 & [= <-] & Hrest).
  apply bind_returns in Hrest as ([] & w3 & Hloop & Hrest).
  apply (variants_advance _ _ _ _ _ _ t0 t1) in Hloop;
    [|cbn [progress emit]; congruence].
  apply bind_returns in Hrest as ([] & w4 & [= <-] & Hcb).
  apply progress_update_returns in Hcb. cbn [progress emit] in Hcb.
  by rewrite Hcb, Hloop.
Qed.

Lemma jobs_advance env (jobs : list (MusicInfo.t * list VocalInfo.t)) :
  forall w w' t0 t1,
    progress w = [t0; t1] ->
    for_each (fun job => fetch_music env job.1 job.2 (progress_update 1)
                                     (progress_update 0)) jobs w = Ret tt w' ->
    progress w' = [advance_by (length jobs) t0;
                   advance_by (list_sum (List.map (fun job => length job.2) jobs)) t1].
Proof.
  induction jobs as [|job jobs IH]; intros w w' t0 t1 Hbars; cbn [for_each].
  { intros [= <-]. by rewrite !advance_by_zero. }
  intros ([] & w1 & Hjob & Hrest)%bind_returns.
  apply (fetch_music_advances _ _ _ _ _ t0 t1) in Hjob; [|done].
  rewrite (IH _ _ _ _ Hjob Hrest), !advance_by_plus.
  cbn [length List.map]. unfold list_sum. cbn [fold_right].
  f_equal; [f_equal; lia|]. f_equal. f_equal. lia.
Qed.

End Bars.

(** X14. When the downloads end normally the two bars of lines 228-235
    show: for the tracks, the number of loaded tracks as total and the
    number of scheduled workers as completed; for the variants, the sum of
    the lengths of all lists of the variant map as total and the number
    of variants handed to the workers as completed. A skipped variant
    counts as a completed one. *)
Theorem bars_at_completion (env : Env) (w w' : World)
    (Hrun : download_all env w = Ret tt w') :
  progress w' =
    [mkTask "[red]Downloading music..." (length (musics w)) (length (scheduled w));
     mkTask "[red]Downloading variants..." (variant_total (vocal_map w))
            (scheduled_variants w)].
Proof.
  unfold download_all, open_progress in Hrun.
  apply bind_returns in Hrun as (tasks & w1 & Hopen & Hrun).
  injection Hopen as <- <-.
  unfold gather in Hrun. apply bind_returns in Hrun as (jobs & w2 & [= <- <-] & Hrun).
  cbn [fst snd] in Hrun.
  eapply jobs_advance in Hrun; [|reflexivity].
  rewrite Hrun. unfold scheduled_variants, advance_by. cbn.
  by rewrite !Nat.add_0_r.
Qed.

Lemma bars_at_completion_witness :
  progress (final (download_all sample_env anonymous_world)) =
    [mkTask "[red]Downloading music..." 1 1;
     mkTask "[red]Downloading variants..." 1 1].
Proof.
  apply (bars_at_completion sample_env anonymous_world
           (final (download_all sample_env anonymous_world))).
  vm_compute. reflexivity.
Defined.

(** ** A variant from the request to the tagged file *)

Section Variant.



(** A regular file among the directories to make stops [mkdir]. *)
Lemma mkdir_blocked ps :
  forall tree q f,
    q ∈ ps -> tree !! q = Some (Reg f) ->
    fold_left mkdir_step ps (Some tree) = None.
Proof.
  induction ps as [|p ps IH]; intros tree q f Hin Hq; [by apply elem_of_nil in Hin|].
  cbn [fold_left]. unfold mkdir_step at 2.
  apply elem_of_cons in Hin as [->|Hin].
  { rewrite Hq. apply mkdir_failed. }
  destruct (tree !! p) as [[|g]|] eqn:Hp.
  - by apply (IH tree q f).
  - apply mkdir_failed.
  - apply (IH _ q f); [done|]. rewrite lookup_insert_ne; [done|]. congruence.
Qed.

Lemma download_in_the_way music vocal names :
  ["Download"] ∈
    Path.prefixes (Path.parent (Path.of_string (oop_path_arg music vocal names))).
Proof.
  rewrite of_string_oop_path, app_comm_cons, parent_snoc.
  cbn [Path.prefixes]. apply elem_of_cons. by left.
Qed.

(** With a regular file called [Download] no variant gets past line 122. *)
Lemma fetch_vocal_blocked env music cover_png cb vocal w f :
  fs w !! ["Download"] = Some (Reg f) ->
  exists e, fetch_vocal env music cover_png cb vocal w = Raise e w.
Proof.
  intros Hfile. unfold fetch_vocal. unfold bind at 1.
  rewrite map_m_character_name.
  destruct (resolve w (VocalInfo.characters vocal)) as [k|names];
    [by eexists|].
  unfold bind at 1, mkdir_parents at 1.
  rewrite (mkdir_blocked _ _ ["Download"] f (download_in_the_way music vocal names) Hfile).
  by eexists.
Qed.

(** An iteration that ends normally leaves something at the destination. *)
Lemma fetch_vocal_leaves_file env music cover_png vocal w w' names :
  resolve w (VocalInfo.characters vocal) = inr names ->
  fetch_vocal env music cover_png (ret tt) vocal w = Ret tt w' ->
  is_Some (fs w' !! Path.of_string (oop_path_arg music vocal names)).
Proof.
  intros Hnames. unfold fetch_vocal. unfold bind at 1.
  rewrite map_m_character_name, Hnames.
  pose proof (of_string_oop_path music vocal names) as Hpath.
  set (p := Path.of_string (oop_path_arg music vocal names)) in *.
  set (name := music_file_name music vocal names) in *.
  intros ([] & w1 & Hmkdir & Hrest)%bind_returns.
  unfold bind at 1, gets at 1 in Hrest.
  destruct (path_exists p w1) eqn:Hp.
  - apply bind_returns in Hrest as ([] & w2 & [= <-] & [= <-]).
    cbn [fs emit]. rewrite Hpath in Hp. cbn [path_exists] in Hp.
    apply bool_decide_eq_true in Hp. by rewrite Hpath.
  - apply bind_returns in Hrest as ([] & w3 & Hdl & Hrest).
    apply bind_returns in Hrest as ([] & w4 & Htag & Hrest).
    apply bind_returns in Hrest as ([] & w5 & [= <-] & [= <-]).
    cbn [fs emit].
    assert (Hw3 : is_Some (fs w3 !! p)).
    { unfold download in Hdl.
      apply bind_returns in Hdl as (content & w2 & _ & Hdl).
      apply bind_returns in Hdl as ([] & w2' & [= <-] & [= <-]).
      cbn [fs emit set_fs]. by rewrite lookup_insert_eq. }
    pose proof (tag_keeps_file env music vocal names cover_png p w3 Hw3) as Hkeep.
    by rewrite Htag in Hkeep.
Qed.

End Variant.

(** X15. The file name is the only key of a download: once an iteration
    of the loop of line 110 has ended normally for a variant, every
    iteration for a variant with the same destination (the same variant
    again, or another one with the same type, singers, title and authors)
    takes the branch of line 123: it prints the line of line 124 and calls
    its callback, and nothing is requested or written for it. *)
Theorem same_destination_is_skipped (env : Env) (music music2 : MusicInfo.t)
    (cover_png : bytes) (vocal vocal2 : VocalInfo.t) (task : nat) (w w' : World)
    (names2 : list string)
    (Htree : tree_ok (fs w))
    (Hrun : fetch_vocal env music cover_png (progress_update task) vocal w = Ret tt w')
    (Hnames : resolve w (VocalInfo.characters vocal2) = inr names2)
    (Hsame : destination w music2 vocal2 = destination w music vocal) :
  forall env' cover_png' cb',
    fetch_vocal env' music2 cover_png' cb' vocal2 w' =
    cb' (emit (already_exists music2 vocal2 names2) w').
Proof.
  intros env' cover_png' cb'.
  assert (Hok : tree_ok (fs w')).
  { pose proof (fetch_vocal_well_formed env music cover_png (progress_update task) vocal
                  (progress_update_well_formed task) w Htree) as H.
    by rewrite Hrun in H. }
  assert (Hchars : same_characters w w').
  { pose proof (fetch_vocal_same_characters env music cover_png (progress_update task)
                  vocal (progress_update_same_characters task) w Logic.I) as H.
    by rewrite Hrun in H. }
  destruct (resolve w (VocalInfo.characters vocal)) as [k|names] eqn:Hres.
  { by rewrite (fetch_vocal_dangling _ _ _ _ _ _ k Hres) in Hrun. }
  unfold destination in Hsame. rewrite Hnames, Hres in Hsame.
  assert (Hpath : Path.of_string (oop_path_arg music2 vocal2 names2) =
                  Path.of_string (oop_path_arg music vocal names)) by congruence.
  clear Hsame.
  assert (Hthere : is_Some (fs w' !! Path.of_string (oop_path_arg music2 vocal2 names2))).
  { rewrite Hpath. rewrite fetch_vocal_then in Hrun.
    apply bind_returns in Hrun as ([] & w1 & Hbody & Hcb).
    pose proof (fetch_vocal_leaves_file _ _ _ _ _ _ _ Hres Hbody) as Hfile.
    unfold progress_update in Hcb. destruct (progress w1 !! task); [|done].
    injection Hcb as <-. exact Hfile. }
  assert (Hexists : path_exists (Path.of_string (oop_path_arg music2 vocal2 names2)) w'
                    = true).
  { unfold path_exists. destruct (Path.of_string _); [done|].
    by apply bool_decide_eq_true. }
  apply fetch_vocal_skip; [|by apply exists_ready|done].
  by rewrite (resolve_same w w').
Qed.

Lemma same_destination_is_skipped_witness :
  fetch_vocal sample_env (sample_music "Tell Your World" "kz" "kz" "-") []
    (ret tt)
    (sample_vocal 8 "sekai" [sample_reference "game_character" 21])
    (final (fetch_vocal sample_env (sample_music "Tell Your World" "kz" "kz" "-") []
              (progress_update 1)
              (sample_vocal 7 "sekai" [sample_reference "game_character" 21])
              first_run_world)) =
  Ret tt
    (emit (Print "[cyan] kz - Tell Your World - sekai(HatsuneMiku).mp3 already exists.")
       (final (fetch_vocal sample_env (sample_music "Tell Your World" "kz" "kz" "-") []
                 (progress_update 1)
                 (sample_vocal 7 "sekai" [sample_reference "game_character" 21])
                 first_run_world))).
Proof.
  apply (same_destination_is_skipped sample_env
           (sample_music "Tell Your World" "kz" "kz" "-")
           (sample_music "Tell Your World" "kz" "kz" "-") []
           (sample_vocal 7 "sekai" [sample_reference "game_character" 21])
           (sample_vocal 8 "sekai" [sample_reference "game_character" 21])
           1%nat first_run_world
           (final (fetch_vocal sample_env (sample_music "Tell Your World" "kz" "kz" "-") []
                     (progress_update 1)
                     (sample_vocal 7 "sekai" [sample_reference "game_character" 21])
                     first_run_world))
           ["HatsuneMiku"]
           ltac:(apply map_Forall_empty)
           ltac:(vm_compute; reflexivity)
           eq_refl
           ltac:(vm_compute; reflexivity)
           sample_env [] (ret tt)).
Defined.



(** X17. A regular file called [Download] stops the run: with a worker
    scheduled for a track that has a variant, the downloads cannot end
    normally (line 122 raises for the first variant that is reached, and
    nothing catches it), and the file is still there afterwards. *)
Theorem download_blocked_by_a_file (env : Env) (w : World) (f : File)
    (music : MusicInfo.t) (vocals : list VocalInfo.t)
    (Hfile : fs w !! ["Download"] = Some (Reg f))
    (Hjob : (music, vocals) ∈ scheduled w)
    (Hvocals : vocals <> []) :
  returns (download_all env w) = false /\
  fs (final (download_all env w)) !! ["Download"] = Some (Reg f).
Proof.
  split.
  2: { by apply (download_all_only_adds (fun _ => True) env w). }
  unfold download_all. unfold bind at 1.
  destruct (open_progress_returns w) as (w0 & -> & Hm & Hv & _ & Hfs & _).
  unfold gather. unfold bind at 1, gets at 1. cbn [fst snd].
  rewrite (scheduled_same w w0 Hm Hv).
  apply (for_each_fatal (only_adds (fun _ => True)) _ _ (music, vocals));
    [apply only_adds_framing|intros job; by apply fetch_music_only_adds|done|].
  intros w1 [Hkeep _]. cbn [fst snd].
  assert (Hfile1 : fs w1 !! ["Download"] = Some (Reg f)) by (apply Hkeep; by rewrite Hfs).
  unfold fetch_music. unfold bind at 1.
  assert (Hcover : fs (final (fetch_cover music w1)) = fs w1).
  { enough (Hrun : triple (fun _ => True) (fetch_cover music) same_disk)
      by (by destruct (Hrun w1 Logic.I)).
    repeat (call_step same_disk_framing); done. }
  destruct (fetch_cover music w1) as [cover w2|e w2|w2]; [|done..].
  cbn [final] in Hcover.
  unfold bind at 1, print at 1, modify at 1. unfold bind at 1.
  destruct vocals as [|vocal vocals]; [done|]. cbn [for_each]. unfold bind at 1.
  destruct (fetch_vocal_blocked env music cover (progress_update 1) vocal
              (emit (Print ("[green] Got cover for " +:+ MusicInfo.title music)) w2) f)
    as [e ->]; [cbn [fs emit]; by rewrite Hcover|].
  reflexivity.
Qed.

Lemma download_blocked_by_a_file_witness :
  returns (download_all sample_env
             (sample_world (<[["Download"] := Reg (mkFile [] None)]> ∅)
                           [Response [Byte.x89; Byte.x50]])) = false.
Proof.
  apply (download_blocked_by_a_file sample_env
           (sample_world (<[["Download"] := Reg (mkFile [] None)]> ∅)
                         [Response [Byte.x89; Byte.x50]])
           (mkFile [] None)
           (sample_music "Tell Your World" "kz" "kz" "-")
           [sample_vocal 7 "sekai" [sample_reference "game_character" 21]]).
  - reflexivity.
  - apply list_elem_of_In. vm_compute. left. reflexivity.
  - done.
Defined.

(** ** What a run requests and writes *)

Section Trace.







End Trace.


